(** * FileUploader: the chunked media upload of lib/file_uploader.js

    A shallow embedding of [FileUploader.prototype.upload] and its helpers,
    as an event-driven state machine.  The JavaScript handlers (the closures
    registered on the read stream, the transport callbacks and the timer
    callback) become one total function [handle]; the collaborators the
    source does not own (the HTTP transport, Node's read stream, the timer
    queue) are represented by the events they may deliver, and by the
    predicate [enabled] saying when they may deliver them.

    One session is one call of [upload] on a fresh uploader.  A trace lists,
    in order, what the uploader does that can be observed: transport calls,
    invocations of the completion callback, [console.log], [setTimeout],
    and exceptions nothing catches.

    Outside the model: a read stream that emits 'error'; a transport that
    calls back more than once, or before [post]/[get] returns; a successful
    INIT response without [media_id_string]; a [check_after_secs] that is
    not an integer. *)

From Stdlib Require Import ZArith String Ascii List Bool Lia DecimalString.
From stdpp Require Import base option list gmap strings.

Local Open Scope string_scope.
Local Open Scope list_scope.
Local Open Scope Z_scope.

(** ** Constants (lines 6-8) *)

Definition MAX_FILE_SIZE_BYTES : Z := 15 * 1024 * 1024.
Definition MAX_VIDEO_SIZE_BYTES : Z := 512 * 1024 * 1024.
Definition MAX_FILE_CHUNK_BYTES : Z := 5 * 1024 * 1024.

(** ** Values exchanged with the collaborators *)

(** A JavaScript [Error]; only its [message] is ever read or built here. *)
Record jsError := Error { message : string }.

(** [processing_info] of a FINALIZE or STATUS response.  [error] holds
    [error.message]; [None] stands for a field that is absent. *)
Record processingInfo := {
  state : string;
  check_after_secs : option Z;
  progress_percent : option Z;
  error : option string
}.

(** The parsed body of a transport response.  A successful INIT response
    carries [media_id_string]; the other fields are looked at by presence. *)
Record body := {
  media_id_string : string;
  processing_info : option processingInfo
}.

(** The raw HTTP response, third argument of every transport callback. *)
Record httpResponse := { statusCode : Z }.

(** What the transport hands to a callback [(err, bodyObj, resp)]: a truthy
    [err], or a falsy one together with the parsed body. *)
Inductive response :=
| Fail (err : jsError)
| Ok (bodyObj : body) (resp : httpResponse).

Definition chunk := list Byte.byte.

Inductive jsval :=
| VUndefined
| VNum (n : Z)
| VStr (s : string)
| VBody (b : body).

Definition optnum (o : option Z) : jsval :=
  match o with Some n => VNum n | None => VUndefined end.

(** Everything the uploader does that its surroundings can observe. *)
Inductive action :=
| Post (endpoint : string) (params : gmap string jsval)
| Get (endpoint : string) (params : gmap string jsval)
| Callback (err : option jsError) (bodyObj : option body) (resp : option httpResponse)
| ConsoleLog (args : list jsval)
| SetTimeout (ms : Z)
| Throws (e : jsError).

(** ** [Buffer.prototype.toString('base64')] *)

Definition b64_alphabet : string :=
  "ABCDEFGHIJKLMNOPQRSTUVWXYZabcdefghijklmnopqrstuvwxyz0123456789+/".

Definition b64_char (n : N) : ascii :=
  match String.get (N.to_nat n) b64_alphabet with
  | Some c => c
  | None => "="%char
  end.

Definition byteN (b : Byte.byte) : N := Byte.to_N b.

Fixpoint base64 (l : list Byte.byte) : string :=
  match l with
  | [] => ""
  | [a] =>
      let n := N.shiftl (byteN a) 16 in
      String (b64_char (N.land (N.shiftr n 18) 63))
        (String (b64_char (N.land (N.shiftr n 12) 63)) "==")
  | [a; b] =>
      let n := N.lor (N.shiftl (byteN a) 16) (N.shiftl (byteN b) 8) in
      String (b64_char (N.land (N.shiftr n 18) 63))
        (String (b64_char (N.land (N.shiftr n 12) 63))
           (String (b64_char (N.land (N.shiftr n 6) 63)) "="))
  | a :: b :: c :: rest =>
      let n := N.lor (N.lor (N.shiftl (byteN a) 16) (N.shiftl (byteN b) 8)) (byteN c) in
      String (b64_char (N.land (N.shiftr n 18) 63))
        (String (b64_char (N.land (N.shiftr n 12) 63))
           (String (b64_char (N.land (N.shiftr n 6) 63))
              (String (b64_char (N.land n 63)) (base64 rest))))
  end.

(** ** [_initMedia]: sizing, category and the INIT parameters (lines 177-206) *)

(** [Array.prototype.indexOf] on an array of strings. *)
Fixpoint indexOf_from (l : list string) (x : string) (i : Z) : Z :=
  match l with
  | [] => -1
  | y :: l' => if String.eqb y x then i else indexOf_from l' x (i + 1)
  end.

Definition indexOf (l : list string) (x : string) : Z := indexOf_from l x 0.

Definition imageMime : list string := ["image/png"; "image/jpeg"; "image/webp"].
Definition animatedGifMime : list string := ["image/gif"].
Definition videoMime : list string := ["video/mp4"].

Definition maxSizeBytes (mediaType : string) : Z :=
  if 0 <=? indexOf videoMime mediaType then MAX_VIDEO_SIZE_BYTES else MAX_FILE_SIZE_BYTES.

(** The three assignments of lines 197-199, in order; [None] is [null]. *)
Definition mediaCategory (mediaType : string) : option string :=
  let c0 : option string := None in
  let c1 := if 0 <=? indexOf imageMime mediaType then Some "tweet_image" else c0 in
  let c2 := if 0 <=? indexOf animatedGifMime mediaType then Some "tweet_gif" else c1 in
  let c3 := if 0 <=? indexOf videoMime mediaType then Some "tweet_video" else c2 in
  c3.

Definition initParameters (mediaType : string) (mediaFileSizeBytes : Z) : gmap string jsval :=
  let p : gmap string jsval :=
    <["total_bytes" := VNum mediaFileSizeBytes]>
      (<["media_type" := VStr mediaType]>
         (<["command" := VStr "INIT"]> ∅)) in
  match mediaCategory mediaType with
  | Some c => <["media_category" := VStr c]> p
  | None => p
  end.

(** [%d] of [util.format] on an integer. *)
Definition fmt_d (n : Z) : string := NilZero.string_of_int (Z.to_int n).

Definition errMsg (maxSize size : Z) : string :=
  "This file is too large. Max size is " +:+ fmt_d maxSize +:+ "B. Got: " +:+ fmt_d size +:+ "B.".

(** ** The uploader, the closure of [upload], and the collaborators' state *)

(** The file as the collaborators see it: [mime.lookup(file_path)],
    [fs.statSync(file_path).size] (or the exception [statSync] throws), and
    the chunks [fs.createReadStream] reads, in order. *)
Record file := {
  file_path : string;
  mime_lookup : string;
  statSync_size : jsError + Z;
  chunks : list chunk
}.

(** Node's read stream: what is left to read, whether it is in flowing mode
    ([pause()] clears it, [resume()] sets it), whether 'end' was emitted. *)
Record ReadStream := {
  unread : list chunk;
  flowing : bool;
  endEmitted : bool
}.

Inductive command := INIT | APPEND | FINALIZE | STATUS.

#[global] Instance command_eq_dec : EqDecision command.
Proof. solve_decision. Defined.

(** [_isUploading] and [_isFileStreamEnded] are the fields of the uploader;
    [mediaTmpId], [chunkNumber] and [mediaFile] are the variables of the
    closure created when INIT succeeds (not read before that);
    [outstanding] are the transport requests whose callback has not run yet,
    [timers] the pending [setTimeout(checkStatus, ms)]. *)
Record world := {
  _isUploading : bool;
  _isFileStreamEnded : bool;
  mediaTmpId : string;
  chunkNumber : Z;
  mediaFile : option ReadStream;
  outstanding : list command;
  timers : list Z
}.

Definition set_isUploading (b : bool) (w : world) : world :=
  {| _isUploading := b; _isFileStreamEnded := _isFileStreamEnded w;
     mediaTmpId := mediaTmpId w; chunkNumber := chunkNumber w;
     mediaFile := mediaFile w; outstanding := outstanding w; timers := timers w |}.

Definition set_isFileStreamEnded (b : bool) (w : world) : world :=
  {| _isUploading := _isUploading w; _isFileStreamEnded := b;
     mediaTmpId := mediaTmpId w; chunkNumber := chunkNumber w;
     mediaFile := mediaFile w; outstanding := outstanding w; timers := timers w |}.

Definition set_closure (id : string) (n : Z) (s : ReadStream) (w : world) : world :=
  {| _isUploading := _isUploading w; _isFileStreamEnded := _isFileStreamEnded w;
     mediaTmpId := id; chunkNumber := n;
     mediaFile := Some s; outstanding := outstanding w; timers := timers w |}.

Definition set_chunkNumber (n : Z) (w : world) : world :=
  {| _isUploading := _isUploading w; _isFileStreamEnded := _isFileStreamEnded w;
     mediaTmpId := mediaTmpId w; chunkNumber := n;
     mediaFile := mediaFile w; outstanding := outstanding w; timers := timers w |}.

Definition set_mediaFile (s : option ReadStream) (w : world) : world :=
  {| _isUploading := _isUploading w; _isFileStreamEnded := _isFileStreamEnded w;
     mediaTmpId := mediaTmpId w; chunkNumber := chunkNumber w;
     mediaFile := s; outstanding := outstanding w; timers := timers w |}.

Definition set_outstanding (l : list command) (w : world) : world :=
  {| _isUploading := _isUploading w; _isFileStreamEnded := _isFileStreamEnded w;
     mediaTmpId := mediaTmpId w; chunkNumber := chunkNumber w;
     mediaFile := mediaFile w; outstanding := l; timers := timers w |}.

Definition set_timers (l : list Z) (w : world) : world :=
  {| _isUploading := _isUploading w; _isFileStreamEnded := _isFileStreamEnded w;
     mediaTmpId := mediaTmpId w; chunkNumber := chunkNumber w;
     mediaFile := mediaFile w; outstanding := outstanding w; timers := l |}.

Definition on_stream (g : ReadStream -> ReadStream) (w : world) : world :=
  set_mediaFile (g <$> mediaFile w) w.

(** [mediaFile.pause()] and [mediaFile.resume()]. *)
Definition pause (s : ReadStream) : ReadStream :=
  {| unread := unread s; flowing := false; endEmitted := endEmitted s |}.
Definition resume (s : ReadStream) : ReadStream :=
  {| unread := unread s; flowing := true; endEmitted := endEmitted s |}.

(** [fs.createReadStream(path, { highWaterMark })] followed by
    [on('data', ...)], which puts the stream in flowing mode. *)
Definition createReadStream (f : file) : ReadStream :=
  {| unread := chunks f; flowing := true; endEmitted := false |}.

(** [new FileUploader(params, twit)] (lines 21-29). *)
Definition FileUploader : world :=
  {| _isUploading := false; _isFileStreamEnded := false;
     mediaTmpId := ""; chunkNumber := 0; mediaFile := None;
     outstanding := []; timers := [] |}.

(** Handing a request to the transport: the call is observable, and its
    callback is outstanding until the transport answers. *)
Definition request (k : command) (a : action) (w : world) : world * list action :=
  (set_outstanding (outstanding w ++ [k]) w, [a]).

Fixpoint remove1 {A} `{EqDecision A} (x : A) (l : list A) : list A :=
  match l with
  | [] => []
  | y :: l' => if decide (x = y) then l' else y :: remove1 x l'
  end.

(** ** The four protocol commands (lines 120-170) *)

Definition _isUploadComplete (w : world) : bool :=
  negb (_isUploading w) && _isFileStreamEnded w.

Definition endpoint_upload : string := "media/upload".

Definition _statusMedia (media_id : string) : action :=
  Get endpoint_upload
    (<["media_id" := VStr media_id]> (<["command" := VStr "STATUS"]> ∅)).

Definition _finalizeMedia (media_id : string) : action :=
  Post endpoint_upload
    (<["media_id" := VStr media_id]> (<["command" := VStr "FINALIZE"]> ∅)).

Definition _appendMedia (media_id_string chunk_part : string) (segment_index : Z) : action :=
  Post endpoint_upload
    (<["media" := VStr chunk_part]>
       (<["segment_index" := VNum segment_index]>
          (<["media_id" := VStr media_id_string]>
             (<["command" := VStr "APPEND"]> ∅)))).

(** The outcome of [_initMedia] before any callback of the transport:
    [statSync] threw, the size check failed and [cb] was called at once, or
    INIT was posted. *)
Inductive initOutcome :=
| InitThrew (e : jsError)
| InitTooLarge (e : jsError)
| InitPosted (params : gmap string jsval).

Definition _initMedia (f : file) : initOutcome :=
  let mediaType := mime_lookup f in
  match statSync_size f with
  | inl e => InitThrew e
  | inr mediaFileSizeBytes =>
      let maxSize := maxSizeBytes mediaType in
      if mediaFileSizeBytes <? maxSize
      then InitPosted (initParameters mediaType mediaFileSizeBytes)
      else InitTooLarge (Error (errMsg maxSize mediaFileSizeBytes))
  end.

(** ** The callbacks of [upload] (lines 36-118) *)

(** [if (!waitTime) waitTime = d]: an absent hint and the number 0 are falsy. *)
Definition orDefault (waitTime : option Z) (d : Z) : Z :=
  match waitTime with
  | None => d
  | Some 0 => d
  | Some n => n
  end.

Definition TypeError (property : string) : jsError :=
  Error ("Cannot read property '" +:+ property +:+ "' of undefined").

Definition setTimeout (ms : Z) (w : world) : world * list action :=
  (set_timers (timers w ++ [ms]) w, [SetTimeout ms]).

(** [checkStatus] (line 55): the timer callback. *)
Definition checkStatus (w : world) : world * list action :=
  request STATUS (_statusMedia (mediaTmpId w)) w.

(** The callback of [_statusMedia] (lines 56-75). *)
Definition statusCallback (r : response) (w : world) : world * list action :=
  match r with
  | Fail err => (w, [Callback (Some err) None None])
  | Ok bodyObj resp =>
      match processing_info bodyObj with
      | None => (w, [Throws (TypeError "state")])
      | Some info =>
          if String.eqb (state info) "in_progress" then
            let waitTime := orDefault (check_after_secs info) 3 in
            let '(w', t) := setTimeout (waitTime * 1000) w in
            (w', ConsoleLog [optnum (progress_percent info); VStr "%"] :: t)
          else if String.eqb (state info) "failed" then
            match error info with
            | None => (w, [Throws (TypeError "message")])
            | Some m => (w, [Callback (Some (Error m)) None None])
            end
          else if String.eqb (state info) "succeeded" then
            (w, [Callback None (Some bodyObj) (Some resp)])
          else (w, [])
      end
  end.

(** [checkAsyncFinish] (lines 48-84): the callback of [_finalizeMedia]. *)
Definition checkAsyncFinish (r : response) (w : world) : world * list action :=
  match r with
  | Fail err => (w, [Callback (Some err) None None])
  | Ok bodyObj resp =>
      let log := ConsoleLog [VStr "checking async finish"; VBody bodyObj] in
      match processing_info bodyObj with
      | Some info =>
          let waitTime := orDefault (check_after_secs info) 5 in
          let '(w', t) := setTimeout (waitTime * 1000) w in
          (w', log :: t)
      | None => (w, [log; Callback None (Some bodyObj) (Some resp)])
      end
  end.

(** The callback of [_appendMedia] (lines 92-106). *)
Definition appendCallback (r : response) (w : world) : world * list action :=
  let w := set_isUploading false w in
  match r with
  | Fail err => (w, [Callback (Some err) None None])
  | Ok _ _ =>
      if _isUploadComplete w
      then request FINALIZE (_finalizeMedia (mediaTmpId w)) w
      else (on_stream resume (set_chunkNumber (chunkNumber w + 1) w), [])
  end.

(** The 'data' listener (lines 86-107). *)
Definition onData (c : chunk) (w : world) : world * list action :=
  let w := on_stream pause w in
  let w := set_isUploading true w in
  request APPEND (_appendMedia (mediaTmpId w) (base64 c) (chunkNumber w)) w.

(** The 'end' listener (lines 109-115). *)
Definition onEnd (w : world) : world * list action :=
  let w := set_isFileStreamEnded true w in
  if _isUploadComplete w
  then request FINALIZE (_finalizeMedia (mediaTmpId w)) w
  else (w, []).

(** The callback [upload] passes to [_initMedia] (lines 40-117). *)
Definition initCallback (f : file) (r : response) (w : world) : world * list action :=
  match r with
  | Fail err => (w, [Callback (Some err) None None])
  | Ok bodyObj _ =>
      (set_closure (media_id_string bodyObj) 0 (createReadStream f) w, [])
  end.

(** [upload(cb)] up to the point where it returns to its caller.  An
    exception of [statSync] unwinds [_initMedia] and [upload]: nothing
    catches it. *)
Definition upload (f : file) : world * list action :=
  match _initMedia f with
  | InitThrew e => (FileUploader, [Throws e])
  | InitTooLarge e => initCallback f (Fail e) FileUploader
  | InitPosted params => request INIT (Post endpoint_upload params) FileUploader
  end.

(** ** The event loop *)

(** What the collaborators may do next: the transport answers an
    outstanding request, the stream emits 'data' or 'end', a timer fires. *)
Inductive event :=
| Response (k : command) (r : response)
| Data
| End
| Timeout (ms : Z).

(** One turn of the event loop.  The stream's own bookkeeping (the chunk is
    taken from [unread], 'end' is marked emitted) happens before the
    listener runs. *)
Definition handle (f : file) (e : event) (w : world) : world * list action :=
  match e with
  | Response k r =>
      let w := set_outstanding (remove1 k (outstanding w)) w in
      match k with
      | INIT => initCallback f r w
      | APPEND => appendCallback r w
      | FINALIZE => checkAsyncFinish r w
      | STATUS => statusCallback r w
      end
  | Data =>
      match mediaFile w with
      | Some s =>
          match unread s with
          | c :: rest =>
              onData c (set_mediaFile
                (Some {| unread := rest; flowing := flowing s; endEmitted := endEmitted s |}) w)
          | [] => (w, [])
          end
      | None => (w, [])
      end
  | End =>
      match mediaFile w with
      | Some s =>
          onEnd (set_mediaFile
            (Some {| unread := unread s; flowing := flowing s; endEmitted := true |}) w)
      | None => (w, [])
      end
  | Timeout ms => checkStatus (set_timers (remove1 ms (timers w)) w)
  end.

(** The contract of the collaborators.  A callback runs only for a request
    that is outstanding, a timer fires only if it is pending, 'data' comes
    only from a flowing stream that has a chunk left, 'end' comes once, after
    the last chunk.  With [lax = true] 'end' may arrive while the stream is
    paused, that is while an APPEND is outstanding or after one has failed:
    a read stream schedules 'end' in the read that emits its last buffered
    chunk, so 'end' can follow the listener's [pause()] with the last APPEND
    unanswered.  [lax = false] is the narrower contract of a stream that
    signals its end only while it flows; each of its schedules is a
    schedule of the wide contract. *)
Definition enabled (lax : bool) (w : world) (e : event) : bool :=
  match e with
  | Response k _ => bool_decide (k ∈ outstanding w)
  | Timeout ms => bool_decide (ms ∈ timers w)
  | Data =>
      match mediaFile w with
      | Some s =>
          flowing s && negb (endEmitted s) &&
          match unread s with [] => false | _ :: _ => true end
      | None => false
      end
  | End =>
      match mediaFile w with
      | Some s =>
          negb (endEmitted s) &&
          match unread s with [] => true | _ :: _ => false end &&
          (lax || flowing s)
      | None => false
      end
  end.

(** Running a schedule of events from a world; [None] when the schedule
    asks a collaborator for something its contract excludes. *)
Fixpoint run (lax : bool) (f : file) (evs : list event) (w : world)
  : option (world * list action) :=
  match evs with
  | [] => Some (w, [])
  | e :: evs' =>
      if enabled lax w e then
        let '(w1, a) := handle f e w in
        match run lax f evs' w1 with
        | Some (w2, tr) => Some (w2, a ++ tr)
        | None => None
        end
      else None
  end.

(** A whole session: [upload(cb)], then the schedule. *)
Definition session (lax : bool) (f : file) (evs : list event)
  : option (world * list action) :=
  let '(w0, a0) := upload f in
  match run lax f evs w0 with
  | Some (w, tr) => Some (w, a0 ++ tr)
  | None => None
  end.

(** Nothing can happen any more: no event is enabled. *)
Definition quiescent (lax : bool) (w : world) : Prop :=
  forall e, enabled lax w e = false.

(** ** Reading a trace *)

Definition str_field (k : string) (p : gmap string jsval) : option string :=
  match p !! k with Some (VStr s) => Some s | _ => None end.

Definition num_field (k : string) (p : gmap string jsval) : option Z :=
  match p !! k with Some (VNum n) => Some n | _ => None end.

(** The [command] field of a transport call. *)
Definition command_of (a : action) : option string :=
  match a with
  | Post _ p | Get _ p => str_field "command" p
  | _ => None
  end.

Definition is_command (c : string) (a : action) : bool :=
  match command_of a with
  | Some c' => String.eqb c c'
  | None => false
  end.

Definition is_transport (a : action) : bool :=
  match a with Post _ _ | Get _ _ => true | _ => false end.

Definition is_callback (a : action) : bool :=
  match a with Callback _ _ _ => true | _ => false end.

Definition is_timeout (a : action) : bool :=
  match a with SetTimeout _ => true | _ => false end.

Definition count (p : action -> bool) (tr : list action) : nat :=
  length (List.filter p tr).

(** The [segment_index] of an APPEND. *)
Definition segment_index_of (a : action) : option Z :=
  match a with
  | Post _ p => if is_command "APPEND" a then num_field "segment_index" p else None
  | _ => None
  end.

(** The [media] payload of an APPEND. *)
Definition media_of (a : action) : option string :=
  match a with
  | Post _ p => if is_command "APPEND" a then str_field "media" p else None
  | _ => None
  end.

(** The [segment_index] of every APPEND of a trace, in order. *)
Definition segment_indices (tr : list action) : list Z := omap segment_index_of tr.

(** The [media] payload of every APPEND of a trace, in order. *)
Definition media_payloads (tr : list action) : list string := omap media_of tr.

Definition is_data (e : event) : bool :=
  match e with Data => true | _ => false end.

Definition is_end (e : event) : bool :=
  match e with End => true | _ => false end.

Definition is_append_failure (e : event) : bool :=
  match e with Response APPEND (Fail _) => true | _ => false end.

Definition count_ev (p : event -> bool) (evs : list event) : nat :=
  length (List.filter p evs).

(** ** The phases of an upload

    Every world a session can reach has one of nine shapes.  [done] are the
    chunks the stream has delivered so far. *)

Inductive phase :=
| PInit                        (* INIT is outstanding *)
| PDead                        (* INIT was refused or never sent *)
| PFlowing                     (* the stream flows, nothing outstanding *)
| PAppending (ended : bool)    (* an APPEND is outstanding, the stream paused *)
| PAppendFailed (ended : bool) (* an APPEND failed, the stream stays paused *)
| PFinalizing                  (* FINALIZE is outstanding *)
| PWaiting (ms : Z)            (* a poll timer is pending *)
| PPolling                     (* STATUS is outstanding *)
| PSettled.                    (* after the last response of FINALIZE or STATUS *)

Inductive shape (f : file) : phase -> list chunk -> world -> Prop :=
| shape_init :
    shape f PInit [] (Build_world false false "" 0 None [INIT] [])
| shape_dead :
    shape f PDead [] FileUploader
| shape_flowing id done u :
    chunks f = done ++ u ->
    shape f PFlowing done
      (Build_world false false id (Z.of_nat (length done))
         (Some (Build_ReadStream u true false)) [] [])
| shape_appending id done u e n :
    chunks f = done ++ u ->
    (e = true -> u = []) ->
    n + 1 = Z.of_nat (length done) ->
    shape f (PAppending e) done
      (Build_world true e id n (Some (Build_ReadStream u false e)) [APPEND] [])
| shape_append_failed id done u e n :
    chunks f = done ++ u ->
    (e = true -> u = []) ->
    shape f (PAppendFailed e) done
      (Build_world false e id n (Some (Build_ReadStream u false e)) [] [])
| shape_finalizing id n fl :
    shape f PFinalizing (chunks f)
      (Build_world false true id n (Some (Build_ReadStream [] fl true)) [FINALIZE] [])
| shape_waiting id n fl ms :
    shape f (PWaiting ms) (chunks f)
      (Build_world false true id n (Some (Build_ReadStream [] fl true)) [] [ms])
| shape_polling id n fl :
    shape f PPolling (chunks f)
      (Build_world false true id n (Some (Build_ReadStream [] fl true)) [STATUS] [])
| shape_settled id n fl :
    shape f PSettled (chunks f)
      (Build_world false true id n (Some (Build_ReadStream [] fl true)) [] []).

Local Close Scope Z_scope.

Definition finalized (p : phase) : nat :=
  match p with
  | PFinalizing | PWaiting _ | PPolling | PSettled => 1
  | _ => 0
  end.

Definition ended_in (p : phase) : bool :=
  match p with
  | PAppending e | PAppendFailed e => e
  | PFinalizing | PWaiting _ | PPolling | PSettled => true
  | _ => false
  end.

Definition append_failed (p : phase) : bool :=
  match p with PAppendFailed _ => true | _ => false end.

Definition before_polling (p : phase) : bool :=
  match p with
  | PWaiting _ | PPolling | PSettled => false
  | _ => true
  end.

(** How often the completion callback has run, by phase.  With the lax
    stream contract a FINALIZE can follow a failed APPEND, so the phases
    after FINALIZE are bounded for the narrow contract only. *)
Definition callbacks_ok (lax : bool) (p : phase) (tr : list action) : Prop :=
  match p with
  | PInit | PFlowing | PAppending _ => count is_callback tr = 0
  | PAppendFailed _ => count is_callback tr = 1
  | PDead => count is_callback tr <= 1
  | PFinalizing | PWaiting _ | PPolling => lax = false -> count is_callback tr = 0
  | PSettled => lax = false -> count is_callback tr <= 1
  end.

(** What the history of a session says in each phase. *)
Record facts (lax : bool) (p : phase) (done : list chunk)
    (evs : list event) (tr : list action) : Prop := {
  f_indices : segment_indices tr = Z.of_nat <$> seq 0 (length done);
  f_media : media_payloads tr = base64 <$> done;
  f_appends : count (is_command "APPEND") tr = length done;
  f_data : count_ev is_data evs = length done;
  f_final : count (is_command "FINALIZE") tr = finalized p;
  f_end : existsb is_end evs = ended_in p;
  f_failed : append_failed p = true -> existsb is_append_failure evs = true;
  f_lax : ended_in p = true -> finalized p = 0 -> lax = true;
  f_nopoll : before_polling p = true ->
             count is_timeout tr = 0 /\ count (is_command "STATUS") tr = 0;
  f_cb : callbacks_ok lax p tr
}.

Definition Inv (f : file) (lax : bool) (evs : list event) (tr : list action)
    (w : world) : Prop :=
  exists p done, shape f p done w /\ facts lax p done evs tr.

(** The phases in which no event is enabled any more. *)
Definition final_phase (lax : bool) (p : phase) : bool :=
  match p with
  | PDead | PSettled | PAppendFailed true => true
  | PAppendFailed false => negb lax
  | _ => false
  end.

(** ** Polling scripts *)

(** A STATUS response that reports processing still in progress. *)
Definition in_progress (b : body) : Prop :=
  exists info, processing_info b = Some info /\ state info = "in_progress".

Definition wait_hint (b : body) : option Z :=
  match processing_info b with
  | Some info => check_after_secs info
  | None => None
  end.

(** A polling script: each timer fires and its STATUS request is answered;
    the next timer is the one that answer has set. *)
Fixpoint polls (ms : Z) (answers : list (body * httpResponse)) : list event :=
  match answers with
  | [] => []
  | (b, r) :: rest =>
      Timeout ms :: Response STATUS (Ok b r) ::
      polls (orDefault (wait_hint b) 3 * 1000)%Z rest
  end.

(** ** Example files, responses and schedules *)

Definition http_ok : httpResponse := {| statusCode := 200 |}.

Definition ok_body : body :=
  {| media_id_string := "77"; processing_info := None |}.

Definition processing (st : string) (after pct : option Z) (err : option string) : body :=
  {| media_id_string := "77";
     processing_info := Some {| state := st; check_after_secs := after;
                                progress_percent := pct; error := err |} |}.

(** A JPEG read in three chunks (the bytes of "M", "a", "n"). *)
Definition jpeg_3 : file :=
  {| file_path := "photo.jpg"; mime_lookup := "image/jpeg";
     statSync_size := inr 3%Z;
     chunks := [[Byte.x4d]; [Byte.x61]; [Byte.x6e]] |}.

(** A video whose stream delivers no chunk. *)
Definition video_0 : file :=
  {| file_path := "clip.mp4"; mime_lookup := "video/mp4";
     statSync_size := inr 0%Z; chunks := [] |}.

(** 'end' after the response to the last APPEND. *)
Definition end_after_last_append : list event :=
  [Response INIT (Ok ok_body http_ok);
   Data; Response APPEND (Ok ok_body http_ok);
   Data; Response APPEND (Ok ok_body http_ok);
   Data; Response APPEND (Ok ok_body http_ok);
   End; Response FINALIZE (Ok ok_body http_ok)].

(** 'end' while the last APPEND is outstanding. *)
Definition end_before_last_append : list event :=
  [Response INIT (Ok ok_body http_ok);
   Data; Response APPEND (Ok ok_body http_ok);
   Data; Response APPEND (Ok ok_body http_ok);
   Data; End; Response APPEND (Ok ok_body http_ok);
   Response FINALIZE (Ok ok_body http_ok)].

(** 'end' on the paused stream, after the last APPEND has failed. *)
Definition end_after_failed_append : list event :=
  [Response INIT (Ok ok_body http_ok);
   Data; Response APPEND (Ok ok_body http_ok);
   Data; Response APPEND (Ok ok_body http_ok);
   Data; Response APPEND (Fail (Error "ECONNRESET"));
   End; Response FINALIZE (Ok ok_body http_ok)].

Definition jpeg_3_trace : list action :=
  [Post endpoint_upload (initParameters "image/jpeg" 3);
   _appendMedia "77" "TQ==" 0; _appendMedia "77" "YQ==" 1; _appendMedia "77" "bg==" 2;
   _finalizeMedia "77";
   ConsoleLog [VStr "checking async finish"; VBody ok_body];
   Callback None (Some ok_body) (Some http_ok)].

(** INIT, 'end', FINALIZE answered with processing_info. *)
Definition until_polling (b : body) : list event :=
  [Response INIT (Ok ok_body http_ok); End; Response FINALIZE (Ok b http_ok)].

Definition settled_world (n : Z) (fl : bool) : world :=
  Build_world false true "77" n (Some (Build_ReadStream [] fl true)) [] [].

(** A world that waits for the poll timer [ms]. *)
Definition waiting_world (ms : Z) : world :=
  Build_world false true "77" 0 (Some (Build_ReadStream [] true true)) [] [ms].

(** The trace of [video_0] after [until_polling b], which sets the timer [ms]. *)
Definition polling_trace (b : body) (ms : Z) : list action :=
  [Post endpoint_upload (initParameters "video/mp4" 0);
   _finalizeMedia "77";
   ConsoleLog [VStr "checking async finish"; VBody b];
   SetTimeout ms].

Definition pending : body := processing "pending" None None None.

Definition oversize_jpeg : file :=
  {| file_path := "big.jpg"; mime_lookup := "image/jpeg";
     statSync_size := inr (15 * 1024 * 1024)%Z; chunks := [] |}.

Definition unreadable_file : file :=
  {| file_path := "private.png"; mime_lookup := "image/png";
     statSync_size := inl (Error "EACCES: permission denied, stat 'private.png'");
     chunks := [] |}.

Definition missing_file : file :=
  {| file_path := "missing.mp4"; mime_lookup := "video/mp4";
     statSync_size := inl (Error "ENOENT: no such file or directory, stat 'missing.mp4'");
     chunks := [] |}.

(** ** The protocol seen from the transport

    What a session sends, read as the sequence of its [command] fields, and
    what the transport has answered so far. *)

Definition commands (tr : list action) : list string := omap command_of tr.

Definition endpoint_of (a : action) : option string :=
  match a with
  | Post ep _ | Get ep _ => Some ep
  | _ => None
  end.

Definition params_of (a : action) : gmap string jsval :=
  match a with
  | Post _ p | Get _ p => p
  | _ => ∅
  end.

Definition is_get (a : action) : bool :=
  match a with Get _ _ => true | _ => false end.

(** [bodyObj.media_id_string] of a successful response to INIT (line 45). *)
Definition init_answer (e : event) : option string :=
  match e with
  | Response INIT (Ok b _) => Some (media_id_string b)
  | _ => None
  end.

Definition init_id (evs : list event) : option string := head (omap init_answer evs).

Definition is_append_response (e : event) : bool :=
  match e with Response APPEND _ => true | _ => false end.

(** A poll timer fires. *)
Definition is_fired (e : event) : bool :=
  match e with Timeout _ => true | _ => false end.

(** The stream signals its end after the transport has failed an APPEND.
    The callback of a failed APPEND leaves the stream paused and nothing
    reads from it any more. *)
Fixpoint end_after_failure (evs : list event) : bool :=
  match evs with
  | [] => false
  | e :: evs' =>
      (is_append_failure e && existsb is_end evs') || end_after_failure evs'
  end.

(** The responses on which a poll timer is set: FINALIZE answered with
    [processing_info] (lines 54, 77-79), STATUS answered with the state
    [in_progress] (lines 62-66). *)
Definition schedules_poll (e : event) : bool :=
  match e with
  | Response FINALIZE (Ok b _) =>
      match processing_info b with Some _ => true | None => false end
  | Response STATUS (Ok b _) =>
      match processing_info b with
      | Some info => String.eqb (state info) "in_progress"
      | None => false
      end
  | _ => false
  end.

(** A request of the uploader: the INIT it builds from the file, or one of
    [_appendMedia], [_finalizeMedia], [_statusMedia] on the media id [oid]. *)
Definition request_ok (f : file) (oid : option string) (a : action) : Prop :=
  match a with
  | Post _ _ =>
      (exists size, statSync_size f = inr size /\
                    a = Post endpoint_upload (initParameters (mime_lookup f) size)) \/
      (exists id, oid = Some id /\
                  ((exists c i, a = _appendMedia id (base64 c) i) \/
                   a = _finalizeMedia id))
  | Get _ _ => exists id, oid = Some id /\ a = _statusMedia id
  | _ => True
  end.

(** The commands sent up to each phase: [n] chunks delivered, [k] polls. *)
Definition expected_commands (p : phase) (n k : nat) : list string :=
  match p with
  | PDead => []
  | PInit => ["INIT"]
  | PFlowing | PAppending _ | PAppendFailed _ => "INIT" :: replicate n "APPEND"
  | _ => "INIT" :: replicate n "APPEND" ++ "FINALIZE" :: replicate k "STATUS"
  end.

Definition timer_pending (p : phase) : nat :=
  match p with PWaiting _ => 1 | _ => 0 end.

Definition append_pending (p : phase) : nat :=
  match p with PAppending _ => 1 | _ => 0 end.

Record protocol_facts (f : file) (lax : bool) (p : phase) (done : list chunk)
    (evs : list event) (tr : list action) (w : world) : Prop := {
  g_cmds :
    match p with
    | PDead => (commands tr = [] /\ evs = []) \/ commands tr = ["INIT"]
    | _ => commands tr =
           expected_commands p (length done) (count (is_command "STATUS") tr)
    end;
  g_nopoll : before_polling p = true -> count (is_command "STATUS") tr = 0;
  g_timers : count is_timeout tr = count (is_command "STATUS") tr + timer_pending p;
  g_id : init_id evs =
         match p with PInit | PDead => None | _ => Some (mediaTmpId w) end;
  g_reqs : Forall (request_ok f (init_id evs)) tr;
  g_nofail : lax = false -> append_failed p = false ->
             existsb is_append_failure evs = false;
  g_acks : count_ev is_append_response evs + append_pending p = length done;
  g_end : existsb is_end evs = ended_in p;
  g_sched : count is_timeout tr = count_ev schedules_poll evs;
  g_lax : ended_in p = true -> finalized p = 0 -> lax = true;
  g_data : count_ev is_data evs = length done;
  g_polls : count (is_command "STATUS") tr = count_ev is_fired evs;
  g_failed : append_failed p = true -> existsb is_append_failure evs = true;
  g_eaf : lax = false -> end_after_failure evs = false;
  g_cb : end_after_failure evs = false -> callbacks_ok false p tr
}.

Definition ProtoInv (f : file) (lax : bool) (evs : list event) (tr : list action)
    (w : world) : Prop :=
  exists p done, shape f p done w /\ protocol_facts f lax p done evs tr w.

(** ** The arguments of the completion callback *)

(** [cb(err)] with a truthy error and nothing else, or [cb(err, bodyObj, resp)]
    with a falsy error. *)
Definition callback_args_ok (a : action) : bool :=
  match a with
  | Callback (Some _) None None => true
  | Callback None (Some _) (Some _) => true
  | Callback _ _ _ => false
  | _ => true
  end.

Definition is_throw (a : action) : bool :=
  match a with Throws _ => true | _ => false end.

(** ** An upload in which every request succeeds *)

(** The APPENDs of the chunks [u], numbered from [n]. *)
Fixpoint appends_from (id : string) (n : Z) (u : list chunk) : list action :=
  match u with
  | [] => []
  | c :: u' => _appendMedia id (base64 c) n :: appends_from id (n + 1)%Z u'
  end.

(** Each chunk is delivered and its APPEND answered before the next. *)
Definition chunk_rounds (b : body) (r : httpResponse) (u : list chunk) : list event :=
  concat ((fun _ : chunk => [Data; Response APPEND (Ok b r)]) <$> u).

Definition complete_upload (f : file) (b0 ba bf : body) (r : httpResponse) : list event :=
  Response INIT (Ok b0 r) :: chunk_rounds ba r (chunks f) ++
  [End; Response FINALIZE (Ok bf r)].

Definition flowing_world (id : string) (n : Z) (u : list chunk) : world :=
  Build_world false false id n (Some (Build_ReadStream u true false)) [] [].

(** A STATUS response the code cannot read: no [processing_info], or the
    state [failed] without [error]. *)
Definition unreadable_status (b : body) : Prop :=
  processing_info b = None \/
  exists info, processing_info b = Some info /\
               state info = "failed" /\ error info = None.

Definition no_info_after_finalize : list event :=
  until_polling pending ++
  [Timeout 5000%Z; Response STATUS (Ok ok_body http_ok)].

(** The timer that is pending after the polling script [polls ms answers]. *)
Fixpoint last_delay (ms : Z) (answers : list (body * httpResponse)) : Z :=
  match answers with
  | [] => ms
  | (b, _) :: rest => last_delay (orDefault (wait_hint b) 3 * 1000)%Z rest
  end.

(** Polling until the answer [b]: the script, the last timer, the answer. *)
Definition polls_until (ms : Z) (answers : list (body * httpResponse))
    (b : body) (r : httpResponse) : list event :=
  polls ms answers ++ [Timeout (last_delay ms answers); Response STATUS (Ok b r)].

(** The requests are compared through the lemmas below, never unfolded. *)
Arguments str_field : simpl never.
Arguments num_field : simpl never.
Arguments _appendMedia : simpl never.
Arguments _finalizeMedia : simpl never.
Arguments _statusMedia : simpl never.
Arguments initParameters : simpl never.

(** * Theorems *)

(** ** Sanity checks of the embedding *)

Example base64_Man : base64 [Byte.x4d; Byte.x61; Byte.x6e] = "TWFu".
Proof. reflexivity. Qed.
Example base64_Ma : base64 [Byte.x4d; Byte.x61] = "TWE=".
Proof. reflexivity. Qed.
Example base64_M : base64 [Byte.x4d] = "TQ==".
Proof. reflexivity. Qed.
Example errMsg_ex : errMsg MAX_FILE_SIZE_BYTES 15728640 =
  "This file is too large. Max size is 15728640B. Got: 15728640B.".
Proof. reflexivity. Qed.

(** ** Reading traces: rewriting lemmas *)

Lemma count_nil p : count p [] = 0.
Proof. reflexivity. Qed.

Lemma count_cons p a tr : count p (a :: tr) = (if p a then 1 else 0) + count p tr.
Proof. unfold count. simpl. destruct (p a); reflexivity. Qed.

Lemma count_app p tr1 tr2 : count p (tr1 ++ tr2) = count p tr1 + count p tr2.
Proof. unfold count. rewrite List.filter_app, length_app. reflexivity. Qed.

Lemma count_ev_app p e1 e2 : count_ev p (e1 ++ e2) = count_ev p e1 + count_ev p e2.
Proof. unfold count_ev. rewrite List.filter_app, length_app. reflexivity. Qed.

Lemma segment_indices_app tr1 tr2 :
  segment_indices (tr1 ++ tr2) = segment_indices tr1 ++ segment_indices tr2.
Proof. apply omap_app. Qed.

Lemma media_payloads_app tr1 tr2 :
  media_payloads (tr1 ++ tr2) = media_payloads tr1 ++ media_payloads tr2.
Proof. apply omap_app. Qed.

Lemma command_of_init m s : command_of (Post endpoint_upload (initParameters m s)) = Some "INIT".
Proof. unfold initParameters. destruct (mediaCategory m); reflexivity. Qed.

Lemma is_command_init c m s :
  is_command c (Post endpoint_upload (initParameters m s)) = String.eqb c "INIT".
Proof. unfold is_command. rewrite command_of_init. reflexivity. Qed.

Lemma is_command_append c id part n :
  is_command c (_appendMedia id part n) = String.eqb c "APPEND".
Proof. reflexivity. Qed.

Lemma is_command_finalize c id :
  is_command c (_finalizeMedia id) = String.eqb c "FINALIZE".
Proof. reflexivity. Qed.

Lemma is_command_status c id :
  is_command c (_statusMedia id) = String.eqb c "STATUS".
Proof. reflexivity. Qed.

Lemma segment_indices_append id part n : segment_indices [_appendMedia id part n] = [n].
Proof. reflexivity. Qed.

Lemma media_payloads_append id part n : media_payloads [_appendMedia id part n] = [part].
Proof. reflexivity. Qed.

Lemma segment_indices_finalize id : segment_indices [_finalizeMedia id] = [].
Proof. reflexivity. Qed.

Lemma media_payloads_finalize id : media_payloads [_finalizeMedia id] = [].
Proof. reflexivity. Qed.

Lemma segment_indices_status id : segment_indices [_statusMedia id] = [].
Proof. reflexivity. Qed.

Lemma media_payloads_status id : media_payloads [_statusMedia id] = [].
Proof. reflexivity. Qed.

Lemma segment_indices_init m s : segment_indices [Post endpoint_upload (initParameters m s)] = [].
Proof.
  unfold segment_indices. simpl. rewrite is_command_init. reflexivity.
Qed.

Lemma media_payloads_init m s : media_payloads [Post endpoint_upload (initParameters m s)] = [].
Proof.
  unfold media_payloads. simpl. rewrite is_command_init. reflexivity.
Qed.

Ltac obs :=
  rewrite ?count_app, ?segment_indices_app, ?media_payloads_app,
    ?count_ev_app, ?existsb_app;
  rewrite ?segment_indices_append, ?media_payloads_append,
    ?segment_indices_finalize, ?media_payloads_finalize,
    ?segment_indices_status, ?media_payloads_status,
    ?segment_indices_init, ?media_payloads_init;
  rewrite ?count_cons, ?count_nil, ?is_command_append, ?is_command_finalize,
    ?is_command_status, ?is_command_init;
  simpl.

(** ** Schedules *)

Lemma run_app lax f e1 e2 w :
  run lax f (e1 ++ e2) w =
  match run lax f e1 w with
  | Some (w1, t1) =>
      match run lax f e2 w1 with
      | Some (w2, t2) => Some (w2, t1 ++ t2)
      | None => None
      end
  | None => None
  end.
Proof.
  revert w. induction e1 as [|e e1 IH]; intros w; simpl.
  - destruct (run lax f e2 w) as [[w2 t2]|]; reflexivity.
  - destruct (enabled lax w e); [|reflexivity].
    destruct (handle f e w) as [w1 a]. rewrite IH.
    destruct (run lax f e1 w1) as [[w2 t1]|]; [|reflexivity].
    destruct (run lax f e2 w2) as [[w3 t2]|]; [|reflexivity].
    rewrite app_assoc. reflexivity.
Qed.

Lemma run_quiescent lax f evs w w' tr :
  quiescent lax w -> run lax f evs w = Some (w', tr) ->
  evs = [] /\ w' = w /\ tr = [].
Proof.
  intros Hq Hr. destruct evs as [|e evs]; simpl in Hr.
  - inversion Hr. auto.
  - rewrite Hq in Hr. discriminate.
Qed.

Lemma session_app lax f e1 e2 :
  session lax f (e1 ++ e2) =
  match session lax f e1 with
  | Some (w1, t1) =>
      match run lax f e2 w1 with
      | Some (w2, t2) => Some (w2, t1 ++ t2)
      | None => None
      end
  | None => None
  end.
Proof.
  unfold session. destruct (upload f) as [w0 a0]. rewrite run_app.
  destruct (run lax f e1 w0) as [[w1 t1]|]; [|reflexivity].
  destruct (run lax f e2 w1) as [[w2 t2]|]; [|reflexivity].
  rewrite app_assoc. reflexivity.
Qed.

Lemma run_one lax f e w :
  run lax f [e] w =
  if enabled lax w e then Some (fst (handle f e w), snd (handle f e w)) else None.
Proof.
  simpl. destruct (enabled lax w e); [|reflexivity].
  destruct (handle f e w) as [w1 a]. simpl. rewrite app_nil_r. reflexivity.
Qed.

Lemma enabled_response lax w k r :
  enabled lax w (Response k r) = true -> k ∈ outstanding w.
Proof. simpl. intros H. apply bool_decide_eq_true in H. exact H. Qed.

Lemma enabled_timeout lax w ms :
  enabled lax w (Timeout ms) = true -> ms ∈ timers w.
Proof. simpl. intros H. apply bool_decide_eq_true in H. exact H. Qed.

Lemma elem_of_one {A} (x y : A) : x ∈ [y] -> x = y.
Proof. intros H. apply list_elem_of_singleton in H. exact H. Qed.

Lemma seq_snoc_Z n :
  Z.of_nat <$> seq 0 (n + 1) = (Z.of_nat <$> seq 0 n) ++ [Z.of_nat n].
Proof. rewrite seq_app, fmap_app. reflexivity. Qed.

(** The events a phase admits. *)
Lemma enabled_cases f lax p done w e :
  shape f p done w -> enabled lax w e = true ->
  match p with
  | PInit => exists r, e = Response INIT r
  | PDead | PSettled => False
  | PFlowing =>
      (e = Data /\ exists c rest, unread <$> mediaFile w = Some (c :: rest)) \/
      (e = End /\ unread <$> mediaFile w = Some [])
  | PAppending en =>
      (exists r, e = Response APPEND r) \/
      (e = End /\ en = false /\ lax = true /\ unread <$> mediaFile w = Some [])
  | PAppendFailed en =>
      e = End /\ en = false /\ lax = true /\ unread <$> mediaFile w = Some []
  | PFinalizing => exists r, e = Response FINALIZE r
  | PWaiting ms => e = Timeout ms
  | PPolling => exists r, e = Response STATUS r
  end.
Proof.
  intros Hs He.
  destruct Hs; destruct e as [k r| | |ms'];
    try (apply enabled_response in He; simpl in He);
    try (apply enabled_timeout in He; simpl in He);
    try (apply not_elem_of_nil in He; destruct He);
    try (apply elem_of_one in He; subst);
    simpl in *; try discriminate He; eauto.
  all: try (destruct fl; simpl in He; try discriminate He;
            destruct lax; discriminate He).
  all: try (destruct e0, u; simpl in He; try discriminate He;
            destruct lax; simpl in He; try discriminate He; eauto 6).
  all: destruct u as [|c rest]; try discriminate He; eauto 6.
Qed.

Lemma count_ev_one p e : count_ev p [e] = if p e then 1 else 0.
Proof. unfold count_ev. simpl. destruct (p e); reflexivity. Qed.

Ltac facts_tac :=
  constructor; unfold callbacks_ok; simpl; intros;
  repeat match goal with
         | H : true = true -> _ |- _ => specialize (H eq_refl)
         | H : ?x = ?x -> _ |- _ => specialize (H eq_refl)
         | H : ?P -> _, H' : ?P |- _ => specialize (H H')
         | H : _ /\ _ |- _ => destruct H
         end;
  obs; rewrite ?count_ev_one; simpl;
  rewrite ?length_app, ?seq_snoc_Z, ?fmap_app, ?app_nil_r, ?orb_false_r, ?orb_true_r; simpl;
  try congruence; try lia; auto.

Lemma inv_upload f lax : Inv f lax [] (snd (upload f)) (fst (upload f)).
Proof.
  unfold upload, _initMedia.
  destruct (statSync_size f) as [e|size]; simpl.
  - exists PDead, []. split; [constructor|]. facts_tac.
  - destruct (Z.ltb size (maxSizeBytes (mime_lookup f))); simpl.
    + exists PInit, []. split; [constructor|]. facts_tac.
    + exists PDead, []. split; [constructor|]. facts_tac.
Qed.

Lemma inv_step f lax evs tr w e :
  Inv f lax evs tr w -> enabled lax w e = true ->
  Inv f lax (evs ++ [e]) (tr ++ snd (handle f e w)) (fst (handle f e w)).
Proof.
  intros (p & done & Hs & Hf) He.
  pose proof (enabled_cases _ _ _ _ _ _ Hs He) as Hc. clear He.
  destruct Hf as [Hi Hm Ha Hd Hfin Hend Hfail Hlax Hpoll Hcb].
  inversion Hs; subst; clear Hs; simpl in *.
  - (* PInit *)
    destruct Hc as [r ->]. destruct r as [err|b resp]; simpl.
    + exists PDead, []. split; [constructor|]. facts_tac.
    + exists PFlowing, []. split; [apply (shape_flowing f _ [] (chunks f)); reflexivity|].
      facts_tac.
  - destruct Hc.
  - (* PFlowing *)
    destruct Hc as [[-> (c & rest & Hu)]|[-> Hu]]; inversion Hu; subst; simpl.
    + exists (PAppending false), (done ++ [c]). split.
      * constructor; [rewrite <- app_assoc; assumption|discriminate|].
        rewrite length_app. simpl. lia.
      * facts_tac.
    + rewrite app_nil_r in H. subst done.
      exists PFinalizing, (chunks f). split; [constructor|]. facts_tac.
  - (* PAppending *)
    destruct Hc as [[r ->]|(-> & -> & -> & Hu)].
    + destruct r as [err|b resp]; simpl.
      * exists (PAppendFailed e0), done. split; [constructor; assumption|]. facts_tac.
      * destruct e0; simpl.
        -- assert (u = []) by auto. subst u. rewrite app_nil_r in H. subst done.
           exists PFinalizing, (chunks f). split; [constructor|]. facts_tac.
        -- exists PFlowing, done. split; [rewrite H1; constructor; assumption|].
           facts_tac.
    + inversion Hu; subst. exists (PAppending true), done.
      split; [constructor; auto|]. facts_tac.
  - (* PAppendFailed *)
    destruct Hc as (-> & -> & -> & Hu). inversion Hu; subst.
    rewrite app_nil_r in H. subst done.
    exists PFinalizing, (chunks f). split; [constructor|]. facts_tac.
  - (* PFinalizing *)
    destruct Hc as [r ->]. destruct r as [err|b resp]; simpl.
    + exists PSettled, (chunks f). split; [constructor|]. facts_tac.
    + destruct (processing_info b) as [info|]; simpl.
      * eexists (PWaiting _), (chunks f). split; [constructor|]. facts_tac.
      * exists PSettled, (chunks f). split; [constructor|]. facts_tac.
  - (* PWaiting *)
    subst e. simpl. rewrite decide_True by reflexivity.
    exists PPolling, (chunks f). split; [constructor|]. facts_tac.
  - (* PPolling *)
    destruct Hc as [r ->]. destruct r as [err|b resp]; simpl.
    + exists PSettled, (chunks f). split; [constructor|]. facts_tac.
    + destruct (processing_info b) as [info|]; simpl.
      * destruct (String.eqb (state info) "in_progress"); simpl.
        { eexists (PWaiting _), (chunks f). split; [constructor|]. facts_tac. }
        destruct (String.eqb (state info) "failed"); simpl.
        { destruct (error info); simpl;
            exists PSettled, (chunks f); (split; [constructor|]); facts_tac. }
        destruct (String.eqb (state info) "succeeded"); simpl;
          exists PSettled, (chunks f); (split; [constructor|]); facts_tac.
      * exists PSettled, (chunks f). split; [constructor|]. facts_tac.
  - destruct Hc.
Qed.

Lemma session_inv f lax evs w tr :
  session lax f evs = Some (w, tr) -> Inv f lax evs tr w.
Proof.
  revert w tr. induction evs as [|e evs IH] using rev_ind; intros w tr Hs.
  - unfold session in Hs. pose proof (inv_upload f lax) as H.
    destruct (upload f) as [w0 a0]. simpl in Hs.
    inversion Hs; subst. rewrite app_nil_r. exact H.
  - rewrite session_app in Hs.
    destruct (session lax f evs) as [[w1 t1]|]; [|discriminate].
    rewrite run_one in Hs.
    destruct (enabled lax w1 e) eqn:He; [|discriminate].
    inversion Hs; subst. apply inv_step; auto.
Qed.

(** A schedule cut at one of its events: the session up to the event, the
    turn of the event loop that handles it, and the rest. *)
Lemma session_cut lax f pre e post w tr :
  session lax f (pre ++ e :: post) = Some (w, tr) ->
  exists w1 tr1 tr2,
    session lax f pre = Some (w1, tr1) /\
    enabled lax w1 e = true /\
    run lax f post (fst (handle f e w1)) = Some (w, tr2) /\
    tr = tr1 ++ snd (handle f e w1) ++ tr2.
Proof.
  rewrite session_app. intros Hs.
  destruct (session lax f pre) as [[w1 tr1]|]; [|discriminate].
  simpl in Hs. destruct (enabled lax w1 e) eqn:He; [|discriminate].
  destruct (handle f e w1) as [w2 a] eqn:Hh.
  destruct (run lax f post w2) as [[w3 tr2]|] eqn:Hr; [|discriminate].
  inversion Hs; subst. exists w1, tr1, tr2. rewrite Hh. simpl. repeat split; auto.
Qed.

Lemma shape_quiescent f lax p done w :
  shape f p done w -> final_phase lax p = true -> quiescent lax w.
Proof.
  intros Hs Hp e. destruct (enabled lax w e) eqn:He; [|reflexivity].
  pose proof (enabled_cases _ _ _ _ _ _ Hs He) as Hc.
  destruct p; simpl in Hp; try discriminate Hp; try contradiction.
  destruct Hc as (_ & -> & -> & _). discriminate Hp.
Qed.

(** ** The example sessions *)

Example session_end_after :
  session false jpeg_3 end_after_last_append = Some (settled_world 3 true, jpeg_3_trace).
Proof. vm_compute. reflexivity. Qed.

Example session_end_before :
  session true jpeg_3 end_before_last_append = Some (settled_world 2 false, jpeg_3_trace).
Proof. vm_compute. reflexivity. Qed.

Example session_end_before_refused_by_node :
  session false jpeg_3 end_before_last_append = None.
Proof. vm_compute. reflexivity. Qed.

Lemma settled_world_quiescent lax n fl : quiescent lax (settled_world n fl).
Proof.
  apply (shape_quiescent video_0 lax PSettled (chunks video_0)); [|reflexivity].
  apply (shape_settled video_0).
Qed.

(** ** INIT parameters *)

Lemma indexOf_from_spec l x i :
  (0 <= i)%Z ->
  (In x l -> (0 <= indexOf_from l x i)%Z) /\
  (~ In x l -> indexOf_from l x i = (-1)%Z).
Proof.
  revert i. induction l as [|y l IH]; intros i Hi; simpl.
  - split; [contradiction|reflexivity].
  - destruct (String.eqb y x) eqn:E.
    + apply String.eqb_eq in E. split; [intros _; exact Hi|intros H; exfalso; auto].
    + apply String.eqb_neq in E.
      destruct (IH (i + 1)%Z ltac:(lia)) as [IH1 IH2].
      split; intros H.
      * apply IH1. destruct H; [contradiction|assumption].
      * apply IH2. intros H'. apply H. right. exact H'.
Qed.

Lemma indexOf_found l x : (0 <=? indexOf l x)%Z = bool_decide (x ∈ l).
Proof.
  destruct (indexOf_from_spec l x 0 ltac:(lia)) as [H1 H2]. unfold indexOf.
  destruct (decide (x ∈ l)) as [Hin|Hin].
  - rewrite bool_decide_eq_true_2 by exact Hin.
    apply Z.leb_le, H1, list_elem_of_In, Hin.
  - rewrite bool_decide_eq_false_2 by exact Hin.
    rewrite H2; [reflexivity|]. intros H. apply Hin, list_elem_of_In, H.
Qed.

Lemma mediaCategory_spec m :
  mediaCategory m =
  if bool_decide (m ∈ videoMime) then Some "tweet_video"
  else if bool_decide (m ∈ animatedGifMime) then Some "tweet_gif"
  else if bool_decide (m ∈ imageMime) then Some "tweet_image"
  else None.
Proof. unfold mediaCategory. rewrite !indexOf_found. reflexivity. Qed.

Lemma initParameters_category m s :
  initParameters m s !! "media_category" = VStr <$> mediaCategory m.
Proof. unfold initParameters. destruct (mediaCategory m); reflexivity. Qed.

Lemma initParameters_required m s :
  initParameters m s !! "command" = Some (VStr "INIT") /\
  initParameters m s !! "media_type" = Some (VStr m) /\
  initParameters m s !! "total_bytes" = Some (VNum s).
Proof. unfold initParameters. destruct (mediaCategory m); repeat split; reflexivity. Qed.

(** C9: the INIT request [upload] posts carries media_category
    "tweet_image" exactly for image/png, image/jpeg and image/webp,
    "tweet_gif" exactly for image/gif, "tweet_video" exactly for video/mp4;
    for every other MIME type the key media_category is not in the
    parameters at all; command, media_type and total_bytes are always there. *)
Theorem init_request_category (f : file) (a : action) :
  a ∈ snd (upload f) -> is_transport a = true ->
  exists (size : Z) (p : gmap string jsval),
    statSync_size f = inr size /\
    a = Post endpoint_upload p /\
    (p !! "media_category" = Some (VStr "tweet_image") <->
       mime_lookup f ∈ ["image/png"; "image/jpeg"; "image/webp"]) /\
    (p !! "media_category" = Some (VStr "tweet_gif") <-> mime_lookup f = "image/gif") /\
    (p !! "media_category" = Some (VStr "tweet_video") <-> mime_lookup f = "video/mp4") /\
    (mime_lookup f ∉ ["image/png"; "image/jpeg"; "image/webp"; "image/gif"; "video/mp4"] <->
       "media_category" ∉ dom p) /\
    p !! "command" = Some (VStr "INIT") /\
    p !! "media_type" = Some (VStr (mime_lookup f)) /\
    p !! "total_bytes" = Some (VNum size).
Proof.
  unfold upload, _initMedia. destruct (statSync_size f) as [e|size]; simpl.
  - intros Ha Ht. apply elem_of_one in Ha. subst a. discriminate Ht.
  - destruct (Z.ltb size (maxSizeBytes (mime_lookup f))); simpl; intros Ha Ht;
      apply elem_of_one in Ha; subst a; [|discriminate Ht].
    exists size, (initParameters (mime_lookup f) size).
    destruct (initParameters_required (mime_lookup f) size) as (Hc & Hm & Hb).
    rewrite not_elem_of_dom, initParameters_category, mediaCategory_spec.
    unfold videoMime, animatedGifMime, imageMime.
    repeat split; auto; repeat case_bool_decide; simpl; try congruence;
      rewrite ?elem_of_cons, ?elem_of_nil in *; try intuition congruence.
Qed.

Lemma init_request_category_witness :
  let f := Build_file "a.webp" "image/webp" (inr 10%Z) [] in
  let a := Post endpoint_upload (initParameters "image/webp" 10) in
  a ∈ snd (upload f) /\ is_transport a = true /\
  exists p, a = Post endpoint_upload p /\
            p !! "media_category" = Some (VStr "tweet_image").
Proof.
  intros f a.
  assert (Hin : a ∈ snd (upload f)) by (vm_compute; apply list_elem_of_here).
  assert (Ht : is_transport a = true) by reflexivity.
  split; [exact Hin|]. split; [exact Ht|].
  destruct (init_request_category f a Hin Ht) as (size & p & _ & Hp & Himg & _).
  exists p. split; [exact Hp|]. apply Himg. vm_compute.
  apply list_elem_of_further, list_elem_of_further, list_elem_of_here.
Defined.

(** ** Sizing: the oversize refusal and the failing stat *)

Lemma maxSizeBytes_spec m :
  maxSizeBytes m =
  if String.eqb m "video/mp4" then (512 * 1024 * 1024)%Z else (15 * 1024 * 1024)%Z.
Proof.
  unfold maxSizeBytes. rewrite indexOf_found.
  destruct (String.eqb_spec m "video/mp4") as [->|Hne]; [reflexivity|].
  rewrite bool_decide_eq_false_2; [reflexivity|].
  intros H. apply elem_of_one in H. contradiction.
Qed.

Lemma FileUploader_quiescent lax : quiescent lax FileUploader.
Proof. apply (shape_quiescent (Build_file "" "" (inr 0%Z) []) lax PDead []); [constructor|reflexivity]. Qed.

Lemma session_quiescent lax f evs w tr :
  quiescent lax (fst (upload f)) -> session lax f evs = Some (w, tr) ->
  evs = [] /\ w = fst (upload f) /\ tr = snd (upload f).
Proof.
  unfold session. destruct (upload f) as [w0 a0]. simpl. intros Hq Hs.
  destruct (run lax f evs w0) as [[w1 t1]|] eqn:Hr; [|discriminate].
  destruct (run_quiescent _ _ _ _ _ _ Hq Hr) as (-> & -> & ->).
  inversion Hs. rewrite app_nil_r. auto.
Qed.

(** C3: a file whose size is at least the ceiling that applies (512 MiB for
    video/mp4, 15 MiB otherwise): whatever the collaborators do, the session
    consists of one invocation of the completion callback, with an error
    whose message gives the limit and the size, and of no transport call. *)
Theorem oversize_rejected (lax : bool) (f : file) (size limit : Z)
    (evs : list event) (w : world) (tr : list action) :
  statSync_size f = inr size ->
  limit = (if String.eqb (mime_lookup f) "video/mp4"
           then 512 * 1024 * 1024 else 15 * 1024 * 1024)%Z ->
  (limit <= size)%Z ->
  session lax f evs = Some (w, tr) ->
  evs = [] /\
  tr = [Callback
          (Some (Error ("This file is too large. Max size is " +:+ fmt_d limit
                        +:+ "B. Got: " +:+ fmt_d size +:+ "B.")))
          None None] /\
  count is_callback tr = 1 /\
  count is_transport tr = 0 /\
  quiescent lax w.
Proof.
  intros Hstat Hlimit Hle Hs.
  assert (Hup : upload f =
    (FileUploader, [Callback (Some (Error (errMsg limit size))) None None])).
  { unfold upload, _initMedia. rewrite Hstat, maxSizeBytes_spec, <- Hlimit.
    destruct (Z.ltb_spec size limit); [lia|reflexivity]. }
  destruct (session_quiescent lax f evs w tr) as (-> & -> & ->); auto;
    rewrite Hup; simpl; auto using FileUploader_quiescent.
Qed.

Lemma oversize_rejected_witness :
  session false oversize_jpeg [] =
    Some (FileUploader,
          [Callback (Some (Error "This file is too large. Max size is 15728640B. Got: 15728640B."))
             None None]) /\
  count is_transport
    [Callback (Some (Error "This file is too large. Max size is 15728640B. Got: 15728640B."))
       None None] = 0.
Proof.
  assert (Hs : session false oversize_jpeg [] =
    Some (FileUploader,
          [Callback (Some (Error "This file is too large. Max size is 15728640B. Got: 15728640B."))
             None None])) by reflexivity.
  split; [exact Hs|].
  destruct (oversize_rejected false oversize_jpeg (15 * 1024 * 1024)%Z (15 * 1024 * 1024)%Z
              [] _ _ eq_refl eq_refl ltac:(lia) Hs) as (_ & _ & _ & H & _).
  exact H.
Defined.

(** C5, amended: when [statSync] throws, the exception leaves [upload]
    towards its caller; the completion callback is never invoked and no
    transport call is made, whatever follows. *)
Theorem stat_failure_escapes (lax : bool) (f : file) (e : jsError)
    (evs : list event) (w : world) (tr : list action) :
  statSync_size f = inl e ->
  session lax f evs = Some (w, tr) ->
  snd (upload f) = [Throws e] /\
  evs = [] /\ tr = [Throws e] /\
  count is_callback tr = 0 /\ count is_transport tr = 0.
Proof.
  intros Hstat Hs.
  assert (Hup : upload f = (FileUploader, [Throws e])).
  { unfold upload, _initMedia. rewrite Hstat. reflexivity. }
  destruct (session_quiescent lax f evs w tr) as (-> & -> & ->); auto;
    rewrite Hup; simpl; auto using FileUploader_quiescent.
Qed.

Lemma stat_failure_escapes_witness :
  session false missing_file [] =
    Some (FileUploader,
          [Throws (Error "ENOENT: no such file or directory, stat 'missing.mp4'")]) /\
  count is_callback
    [Throws (Error "ENOENT: no such file or directory, stat 'missing.mp4'")] = 0.
Proof.
  assert (Hs : session false missing_file [] =
    Some (FileUploader,
          [Throws (Error "ENOENT: no such file or directory, stat 'missing.mp4'")]))
    by reflexivity.
  split; [exact Hs|].
  destruct (stat_failure_escapes false missing_file _ [] _ _ eq_refl Hs)
    as (_ & _ & _ & H & _).
  exact H.
Defined.

(** C5 as stated fails: the stat of [missing_file] throws, [upload] ends with
    that exception and has not called the completion callback. *)
Lemma stat_failure_not_called_back :
  upload missing_file =
    (FileUploader,
     [Throws (Error "ENOENT: no such file or directory, stat 'missing.mp4'")]) /\
  count is_callback (snd (upload missing_file)) = 0 /\
  quiescent true (fst (upload missing_file)).
Proof.
  split; [reflexivity|]. split; [reflexivity|]. apply FileUploader_quiescent.
Qed.

(** ** APPEND: sequencing and backpressure *)

Lemma shape_unread f p done w :
  shape f p done w ->
  exists u, chunks f = done ++ u /\ (ended_in p = true -> u = []).
Proof.
  intros Hs. destruct Hs; simpl;
    try (exists (chunks f); split; [reflexivity|discriminate]);
    try (exists u; split; [assumption|auto; discriminate]);
    exists []; rewrite app_nil_r; auto.
Qed.

Lemma shape_backpressure f p done w :
  shape f p done w ->
  length (List.filter (fun k => bool_decide (k = APPEND)) (outstanding w)) <= 1 /\
  (APPEND ∈ outstanding w ->
   _isUploading w = true /\ flowing <$> mediaFile w = Some false) /\
  (_isUploading w = false -> APPEND ∉ outstanding w).
Proof.
  intros Hs. destruct Hs; simpl; (split; [lia|]); split; intros Hq;
    try (apply not_elem_of_nil in Hq; destruct Hq);
    try (apply elem_of_one in Hq; discriminate Hq);
    try discriminate Hq; auto; try apply not_elem_of_nil;
    try (intros Hq'; apply elem_of_one in Hq'; discriminate Hq').
Qed.

Ltac split_cases :=
  repeat match goal with
         | H : False |- _ => destruct H
         | H : _ \/ _ |- _ => destruct H
         | H : _ /\ _ |- _ => destruct H
         | H : exists _, _ |- _ => destruct H
         end; subst.

(** [chunkNumber++] runs in one place only: after a successful APPEND. *)
Lemma chunkNumber_step f lax p done w e :
  shape f p done w -> enabled lax w e = true ->
  chunkNumber (fst (handle f e w)) <> chunkNumber w ->
  (exists b r, e = Response APPEND (Ok b r)) /\
  chunkNumber (fst (handle f e w)) = (chunkNumber w + 1)%Z.
Proof.
  intros Hs He. pose proof (enabled_cases _ _ _ _ _ _ Hs He) as Hc. clear He.
  inversion Hs; subst; clear Hs; simpl in Hc; split_cases; simpl;
    try match goal with r : response |- _ => destruct r as [err|b resp]; simpl end;
    try match goal with H : Some _ = Some _ |- _ => inversion H; subst; simpl end;
    try congruence; eauto.
  - destruct e0; simpl; [congruence|eauto].
  - destruct (processing_info b); simpl; congruence.
  - destruct (processing_info b) as [info|]; simpl; [|congruence].
    destruct (String.eqb (state info) "in_progress"); simpl; [congruence|].
    destruct (String.eqb (state info) "failed"); simpl;
      [destruct (error info); simpl; congruence|].
    destruct (String.eqb (state info) "succeeded"); simpl; congruence.
Qed.

(** C2: the APPENDs of a session.  When the chunk source has produced [n]
    chunks ('data' events), APPEND has been issued [n] times, for the first
    [n] chunks of the file, with segment_index 0, 1, ..., n-1 in this order;
    [n] is the number of chunks of the file once the source has signalled
    its end or FINALIZE has been sent.  At most one APPEND is outstanding,
    and while it is the stream is paused.  [chunkNumber] changes only in the
    callback of a successful APPEND, by one. *)
Theorem append_sequence (lax : bool) (f : file) (evs : list event)
    (w : world) (tr : list action) :
  session lax f evs = Some (w, tr) ->
  let n := count_ev is_data evs in
  count (is_command "APPEND") tr = n /\
  segment_indices tr = Z.of_nat <$> seq 0 n /\
  media_payloads tr = base64 <$> take n (chunks f) /\
  n <= length (chunks f) /\
  (existsb is_end evs = true -> n = length (chunks f)) /\
  (count (is_command "FINALIZE") tr = 1 -> n = length (chunks f)) /\
  length (List.filter (fun k => bool_decide (k = APPEND)) (outstanding w)) <= 1 /\
  (APPEND ∈ outstanding w ->
   _isUploading w = true /\ flowing <$> mediaFile w = Some false) /\
  (forall pre e post w1 tr1,
     evs = pre ++ e :: post ->
     session lax f pre = Some (w1, tr1) ->
     chunkNumber (fst (handle f e w1)) <> chunkNumber w1 ->
     (exists b r, e = Response APPEND (Ok b r)) /\
     chunkNumber (fst (handle f e w1)) = (chunkNumber w1 + 1)%Z).
Proof.
  intros Hs n.
  destruct (session_inv _ _ _ _ _ Hs) as (p & done & Hsh & Hf).
  destruct Hf as [Hi Hm Ha Hd Hfin Hend Hfail Hlax Hpoll Hcb].
  destruct (shape_unread _ _ _ _ Hsh) as (u & Hu & Hue).
  destruct (shape_backpressure _ _ _ _ Hsh) as (Hone & Hpause & _).
  assert (Hn : n = length done) by exact Hd.
  assert (Hfull : ended_in p = true -> n = length (chunks f)).
  { intros H. rewrite (Hue H), app_nil_r in Hu. congruence. }
  rewrite Hn. repeat split; auto.
  - rewrite Hu, take_app_length. exact Hm.
  - rewrite Hu, length_app. lia.
  - rewrite <- Hn. intros H. apply Hfull. congruence.
  - rewrite <- Hn. intros H. apply Hfull. rewrite Hfin in H.
    destruct p; simpl in *; congruence.
  - apply Hpause; assumption.
  - apply Hpause; assumption.
  - subst evs. destruct (session_cut _ _ _ _ _ _ _ Hs) as (w1' & tr1' & tr2 & Hpre & He & _).
    rewrite H0 in Hpre. inversion Hpre; subst.
    destruct (session_inv _ _ _ _ _ H0) as (p1 & d1 & Hs1 & _).
    eapply chunkNumber_step; eauto.
  - subst evs. destruct (session_cut _ _ _ _ _ _ _ Hs) as (w1' & tr1' & tr2 & Hpre & He & _).
    rewrite H0 in Hpre. inversion Hpre; subst.
    destruct (session_inv _ _ _ _ _ H0) as (p1 & d1 & Hs1 & _).
    eapply chunkNumber_step; eauto.
Qed.

Lemma append_sequence_witness :
  session false jpeg_3 end_after_last_append = Some (settled_world 3 true, jpeg_3_trace) /\
  segment_indices jpeg_3_trace = [0; 1; 2]%Z /\
  media_payloads jpeg_3_trace = ["TQ=="; "YQ=="; "bg=="].
Proof.
  assert (Hs : session false jpeg_3 end_after_last_append =
               Some (settled_world 3 true, jpeg_3_trace)) by (vm_compute; reflexivity).
  split; [exact Hs|].
  destruct (append_sequence false jpeg_3 _ _ _ Hs) as (_ & Hi & Hm & _).
  split; [exact Hi|exact Hm].
Defined.

(** ** FINALIZE: the join of 'end' and the last APPEND response *)

(** The turns of the event loop that send FINALIZE. *)
Lemma finalize_step f lax p done w e :
  shape f p done w -> enabled lax w e = true ->
  count (is_command "FINALIZE") (snd (handle f e w)) <> 0 ->
  let w' := fst (handle f e w) in
  snd (handle f e w) = [_finalizeMedia (mediaTmpId w)] /\
  _isUploading w' = false /\ _isFileStreamEnded w' = true /\
  outstanding w' = [FINALIZE] /\
  unread <$> mediaFile w' = Some [] /\
  finalized p = 0 /\
  ((e = End /\ _isUploading w = false /\ ended_in p = false) \/
   ((exists b r, e = Response APPEND (Ok b r)) /\ p = PAppending true)).
Proof.
  intros Hs He. pose proof (enabled_cases _ _ _ _ _ _ Hs He) as Hc. clear He.
  inversion Hs; subst; clear Hs; simpl in Hc; split_cases; simpl;
    try match goal with r : response |- _ => destruct r as [err|b resp]; simpl end;
    try match goal with H : Some _ = Some _ |- _ => inversion H; subst; simpl end;
    try match goal with
        | |- context [processing_info ?b] => destruct (processing_info b) as [info|]; simpl
        end;
    repeat match goal with
           | |- context [String.eqb (state ?i) ?s] => destruct (String.eqb (state i) s); simpl
           | |- context [error ?i] => destruct (error i); simpl
           end;
    try match goal with
        | H : ?e = true -> ?u = [] |- _ => destruct e; [rewrite (H eq_refl)|]; simpl
        end;
    try (rewrite decide_True by reflexivity); simpl;
    obs;
    try (intros Hn; exfalso; apply Hn; reflexivity);
    intros _; repeat apply conj; try reflexivity;
    first [ left; repeat apply conj; reflexivity
          | right; split; [eexists _, _; reflexivity | reflexivity] ].
Qed.

(** C1: FINALIZE is sent at most once in any session, and not before the
    source has signalled its end.  It is sent exactly once as soon as the
    source has signalled its end, if the stream signals
    it only while flowing; and, if 'end' may also arrive while an APPEND is
    outstanding, as soon as that APPEND has been answered and no APPEND has
    failed.  The turn that sends it leaves [_isUploading = false] and
    [_isFileStreamEnded = true], with no APPEND outstanding and nothing left
    to read; it is the 'end' listener when the last APPEND has been answered
    before, and the callback of the last APPEND when 'end' came before. *)
Theorem finalize_once (lax : bool) (f : file) (evs : list event)
    (w : world) (tr : list action) :
  session lax f evs = Some (w, tr) ->
  count (is_command "FINALIZE") tr <= 1 /\
  (existsb is_end evs = false -> count (is_command "FINALIZE") tr = 0) /\
  (existsb is_end evs = true ->
   lax = false \/
   ((APPEND ∉ outstanding w) /\ existsb is_append_failure evs = false) ->
   count (is_command "FINALIZE") tr = 1) /\
  (forall pre e post w1 tr1,
     evs = pre ++ e :: post ->
     session lax f pre = Some (w1, tr1) ->
     count (is_command "FINALIZE") (snd (handle f e w1)) <> 0 ->
     let w2 := fst (handle f e w1) in
     count (is_command "FINALIZE") tr1 = 0 /\
     _isUploading w2 = false /\ _isFileStreamEnded w2 = true /\
     _isUploadComplete w2 = true /\
     (APPEND ∉ outstanding w2) /\
     unread <$> mediaFile w2 = Some [] /\
     ((e = End /\ existsb is_end pre = false /\ (APPEND ∉ outstanding w1)) \/
      ((exists b r, e = Response APPEND (Ok b r)) /\ existsb is_end pre = true))).
Proof.
  intros Hs.
  destruct (session_inv _ _ _ _ _ Hs) as (p & done & Hsh & Hf).
  destruct Hf as [Hi Hm Ha Hd Hfin Hend Hfail Hlax Hpoll Hcb].
  split; [rewrite Hfin; destruct p; simpl; lia|]. split; [|split].
  - intros He. rewrite Hfin. rewrite He in Hend.
    destruct p; simpl in *; congruence.
  - intros He Hcase. rewrite Hfin.
    destruct (finalized p) as [|[|]] eqn:Hz; [|reflexivity|destruct p; discriminate].
    exfalso. rewrite He in Hend. symmetry in Hend.
    destruct Hcase as [Hnode|[Hout Hnf]].
    + rewrite (Hlax Hend eq_refl) in Hnode. discriminate.
    + destruct p; simpl in *; try discriminate.
      * inversion Hsh; subst. apply Hout. simpl. apply list_elem_of_here.
      * rewrite Hfail in Hnf by reflexivity. discriminate.
  - intros pre e post w1 tr1 -> Hpre Hn w2.
    destruct (session_cut _ _ _ _ _ _ _ Hs) as (w1' & tr1' & tr2 & Hpre' & He & _).
    rewrite Hpre in Hpre'. inversion Hpre'; subst w1' tr1'. clear Hpre'.
    destruct (session_inv _ _ _ _ _ Hpre) as (p1 & d1 & Hs1 & Hf1).
    destruct (finalize_step _ _ _ _ _ _ Hs1 He Hn)
      as (Ha1 & Hu1 & He1 & Ho1 & Hr1 & Hz1 & Hwho).
    destruct (shape_backpressure _ _ _ _ Hs1) as (_ & _ & Hidle).
    destruct Hf1 as [_ _ _ _ Hfin1 Hend1 _ _ _ _].
    fold w2 in Hu1, He1, Ho1, Hr1.
    repeat split; auto.
    + congruence.
    + unfold _isUploadComplete. rewrite Hu1, He1. reflexivity.
    + rewrite Ho1. intros H. apply elem_of_one in H. discriminate.
    + destruct Hwho as [(-> & Hup & Hen)|(Hr & ->)].
      * left. repeat split; auto. congruence.
      * right. split; auto.
Qed.

Lemma finalize_once_witness :
  session true jpeg_3 end_before_last_append = Some (settled_world 2 false, jpeg_3_trace) /\
  count (is_command "FINALIZE") jpeg_3_trace = 1.
Proof.
  assert (Hs : session true jpeg_3 end_before_last_append =
               Some (settled_world 2 false, jpeg_3_trace)) by (vm_compute; reflexivity).
  split; [exact Hs|].
  destruct (finalize_once true jpeg_3 _ _ _ Hs) as (_ & _ & Hone & _).
  apply Hone; [reflexivity|]. right. split; [apply not_elem_of_nil|reflexivity].
Defined.

(** ** The completion callback *)

Lemma failure_turn f k err w :
  snd (handle f (Response k (Fail err)) w) = [Callback (Some err) None None].
Proof. destruct k; reflexivity. Qed.

Lemma finalize_turn f b r w :
  snd (handle f (Response FINALIZE (Ok b r)) w) =
  ConsoleLog [VStr "checking async finish"; VBody b] ::
  match processing_info b with
  | Some info => [SetTimeout (orDefault (check_after_secs info) 5 * 1000)]
  | None => [Callback None (Some b) (Some r)]
  end.
Proof. simpl. destruct (processing_info b); reflexivity. Qed.

Lemma status_turn f b r w :
  snd (handle f (Response STATUS (Ok b r)) w) =
  match processing_info b with
  | None => [Throws (TypeError "state")]
  | Some info =>
      if String.eqb (state info) "in_progress" then
        [ConsoleLog [optnum (progress_percent info); VStr "%"];
         SetTimeout (orDefault (check_after_secs info) 3 * 1000)]
      else if String.eqb (state info) "failed" then
        match error info with
        | None => [Throws (TypeError "message")]
        | Some m => [Callback (Some (Error m)) None None]
        end
      else if String.eqb (state info) "succeeded" then
        [Callback None (Some b) (Some r)]
      else []
  end.
Proof.
  simpl. destruct (processing_info b) as [info|]; [|reflexivity].
  destruct (String.eqb (state info) "in_progress"); [reflexivity|].
  destruct (String.eqb (state info) "failed"); [destruct (error info); reflexivity|].
  destruct (String.eqb (state info) "succeeded"); reflexivity.
Qed.

Lemma filter_callback_app tr1 tr2 :
  count is_callback tr1 = 0 ->
  List.filter is_callback (tr1 ++ tr2) = List.filter is_callback tr2.
Proof.
  unfold count. intros H. rewrite List.filter_app.
  destruct (List.filter is_callback tr1); [reflexivity|discriminate H].
Qed.

(** Why the order of 'end' and a failed APPEND matters for the callback:
    were 'end' to arrive on the paused stream after the last APPEND has
    failed, FINALIZE would follow the failure and the callback would run a
    second time.  The callback of a failed APPEND leaves the stream paused
    and nothing reads from it any more. *)
Example session_end_after_failed_append :
  end_after_failure end_after_failed_append = true /\
  session true jpeg_3 end_after_failed_append =
  Some (settled_world 2 false,
        [Post endpoint_upload (initParameters "image/jpeg" 3);
         _appendMedia "77" "TQ==" 0; _appendMedia "77" "YQ==" 1; _appendMedia "77" "bg==" 2;
         Callback (Some (Error "ECONNRESET")) None None;
         _finalizeMedia "77";
         ConsoleLog [VStr "checking async finish"; VBody ok_body];
         Callback None (Some ok_body) (Some http_ok)]) /\
  session false jpeg_3 end_after_failed_append = None.
Proof. split; [reflexivity|]. split; vm_compute; reflexivity. Qed.

(** ** After FINALIZE: settling and polling *)

Lemma response_phase f lax p done w k r :
  shape f p done w -> enabled lax w (Response k r) = true ->
  match k with
  | INIT => p = PInit
  | APPEND => exists e, p = PAppending e
  | FINALIZE => p = PFinalizing
  | STATUS => p = PPolling
  end.
Proof.
  intros Hs He. pose proof (enabled_cases _ _ _ _ _ _ Hs He) as Hc.
  destruct p; simpl in Hc; split_cases; try discriminate;
    try match goal with H : Response _ _ = Response _ _ |- _ => inversion H; subst end;
    eauto.
Qed.

(** The turn that handles the response to FINALIZE or STATUS either sets one
    timer, and the session waits for it, or sets none, and the session is
    settled. *)
Lemma poll_turn_shape f p w k r :
  shape f p (chunks f) w ->
  (k = FINALIZE /\ p = PFinalizing) \/ (k = STATUS /\ p = PPolling) ->
  let a := snd (handle f (Response k r) w) in
  let w' := fst (handle f (Response k r) w) in
  (count is_timeout a = 0 /\ shape f PSettled (chunks f) w') \/
  (exists ms, List.filter is_timeout a = [SetTimeout ms] /\
              shape f (PWaiting ms) (chunks f) w').
Proof.
  intros Hs [(-> & ->)|(-> & ->)]; inversion Hs; subst; simpl;
    destruct r as [err|b resp]; simpl;
    try (left; split; [reflexivity|constructor]).
  - destruct (processing_info b) as [info|]; simpl.
    + right. eexists. split; [reflexivity|constructor].
    + left. split; [reflexivity|constructor].
  - destruct (processing_info b) as [info|]; simpl;
      [|left; split; [reflexivity|constructor]].
    destruct (String.eqb (state info) "in_progress"); simpl.
    { right. eexists. split; [reflexivity|constructor]. }
    destruct (String.eqb (state info) "failed"); simpl.
    { destruct (error info); left; split; try reflexivity; constructor. }
    destruct (String.eqb (state info) "succeeded"); simpl;
      left; split; try reflexivity; constructor.
Qed.

(** A session cut at the response to FINALIZE or STATUS. *)
Lemma poll_response_cut lax f pre k r post w tr :
  session lax f (pre ++ Response k r :: post) = Some (w, tr) ->
  k = FINALIZE \/ k = STATUS ->
  exists w1 tr1 tr2,
    session lax f pre = Some (w1, tr1) /\
    run lax f post (fst (handle f (Response k r) w1)) = Some (w, tr2) /\
    tr = tr1 ++ snd (handle f (Response k r) w1) ++ tr2 /\
    shape f (match k with FINALIZE => PFinalizing | _ => PPolling end) (chunks f) w1 /\
    (lax = false -> count is_callback tr1 = 0) /\
    (k = FINALIZE ->
     count is_timeout tr1 = 0 /\ count (is_command "STATUS") tr1 = 0).
Proof.
  intros Hs Hk.
  destruct (session_cut _ _ _ _ _ _ _ Hs) as (w1 & tr1 & tr2 & Hpre & He & Hrun & ->).
  destruct (session_inv _ _ _ _ _ Hpre) as (p & done & Hsh & Hf).
  pose proof (response_phase _ _ _ _ _ _ _ Hsh He) as Hp.
  destruct Hf as [_ _ _ _ _ _ _ _ Hpoll Hcb].
  exists w1, tr1, tr2.
  destruct Hk as [-> | ->]; subst p; inversion Hsh; subst;
    repeat split; auto; try (rewrite <- H; assumption);
    try (apply Hpoll; reflexivity); try discriminate.
Qed.

Lemma shape_settled_idle f done w :
  shape f PSettled done w -> outstanding w = [] /\ timers w = [].
Proof. intros H. inversion H; subst. auto. Qed.

(** When that turn sets no timer, the session is over. *)
Lemma settled_cut lax f pre k r post w tr :
  session lax f (pre ++ Response k r :: post) = Some (w, tr) ->
  k = FINALIZE \/ k = STATUS ->
  (forall w0, count is_timeout (snd (handle f (Response k r) w0)) = 0) ->
  exists w1 tr1,
    session lax f pre = Some (w1, tr1) /\
    post = [] /\ quiescent lax w /\
    tr = tr1 ++ snd (handle f (Response k r) w1) /\
    outstanding w = [] /\ timers w = [] /\
    (lax = false -> count is_callback tr1 = 0) /\
    (k = FINALIZE ->
     count is_timeout tr1 = 0 /\ count (is_command "STATUS") tr1 = 0).
Proof.
  intros Hs Hk Hn.
  destruct (poll_response_cut _ _ _ _ _ _ _ _ Hs Hk)
    as (w1 & tr1 & tr2 & Hpre & Hrun & -> & Hsh & Hcb & Hpoll).
  specialize (Hn w1).
  assert (Hset : shape f PSettled (chunks f) (fst (handle f (Response k r) w1))).
  { destruct (poll_turn_shape f _ w1 k r Hsh) as [(_ & H)|(ms & Hms & _)].
    - destruct Hk as [-> | ->]; auto.
    - exact H.
    - unfold count in Hn. rewrite Hms in Hn. discriminate Hn. }
  pose proof (shape_quiescent _ lax _ _ _ Hset eq_refl) as Hq.
  destruct (run_quiescent _ _ _ _ _ _ Hq Hrun) as (-> & -> & ->).
  destruct (shape_settled_idle _ _ _ Hset) as [Ho Ht].
  exists w1, tr1. rewrite app_nil_r.
  repeat split; auto; apply Hpoll; assumption.
Qed.

(** C7: a STATUS response whose state is failed.  The turn that handles it
    invokes the completion callback once, with a new error whose message is
    the processing_info.error.message of the response; no timer is set and
    no event can follow, so the polling stops.  With a stream that signals
    its end only while it flows, this is the only invocation of the session. *)
Theorem status_failed (lax : bool) (f : file) (pre post : list event)
    (b : body) (r : httpResponse) (info : processingInfo) (m : string)
    (w : world) (tr : list action) :
  session lax f (pre ++ Response STATUS (Ok b r) :: post) = Some (w, tr) ->
  processing_info b = Some info ->
  state info = "failed" ->
  error info = Some m ->
  post = [] /\ quiescent lax w /\ timers w = [] /\ outstanding w = [] /\
  (exists w1 tr1, session lax f pre = Some (w1, tr1) /\
                  tr = tr1 ++ [Callback (Some (Error m)) None None]) /\
  message (Error m) = m /\
  (lax = false ->
   List.filter is_callback tr = [Callback (Some (Error m)) None None]).
Proof.
  intros Hs Hb Hst Hm.
  destruct (settled_cut _ _ _ _ _ _ _ _ Hs (or_intror eq_refl))
    as (w1 & tr1 & Hpre & -> & Hq & -> & Ho & Ht & Hcb & _).
  { intros w0. rewrite status_turn, Hb, Hst, Hm. reflexivity. }
  rewrite status_turn, Hb, Hst, Hm. simpl.
  repeat split; auto.
  - exists w1, tr1. auto.
  - intros Hlax. rewrite filter_callback_app by auto. reflexivity.
Qed.

Lemma status_failed_witness :
  session false video_0
    (until_polling (processing "pending" (Some 1%Z) None None) ++
     [Timeout 1000;
      Response STATUS (Ok (processing "failed" None None (Some "transcode error")) http_ok)]) =
  Some (settled_world 0 true,
        polling_trace (processing "pending" (Some 1%Z) None None) 1000 ++
        [_statusMedia "77"; Callback (Some (Error "transcode error")) None None]) /\
  List.filter is_callback
    (polling_trace (processing "pending" (Some 1%Z) None None) 1000 ++
     [_statusMedia "77"; Callback (Some (Error "transcode error")) None None]) =
  [Callback (Some (Error "transcode error")) None None].
Proof.
  assert (Hs : session false video_0
    ((until_polling (processing "pending" (Some 1%Z) None None) ++ [Timeout 1000]) ++
      Response STATUS (Ok (processing "failed" None None (Some "transcode error")) http_ok)
      :: []) =
  Some (settled_world 0 true,
        polling_trace (processing "pending" (Some 1%Z) None None) 1000 ++
        [_statusMedia "77"; Callback (Some (Error "transcode error")) None None]))
    by (vm_compute; reflexivity).
  split; [exact Hs|].
  destruct (status_failed false video_0 _ _ _ _ _ "transcode error" _ _ Hs
              eq_refl eq_refl eq_refl) as (_ & _ & _ & _ & _ & _ & H).
  exact (H eq_refl).
Defined.

(** C10: a STATUS response whose state is none of in_progress, failed and
    succeeded.  The turn that handles it does nothing at all: no timer, no
    request, no callback; and no event can follow.  With a stream that
    signals its end only while it flows, the completion callback is not
    invoked in the whole session. *)
Theorem status_unknown_state (lax : bool) (f : file) (pre post : list event)
    (b : body) (r : httpResponse) (info : processingInfo)
    (w : world) (tr : list action) :
  session lax f (pre ++ Response STATUS (Ok b r) :: post) = Some (w, tr) ->
  processing_info b = Some info ->
  state info <> "in_progress" -> state info <> "failed" ->
  state info <> "succeeded" ->
  (forall w0, snd (handle f (Response STATUS (Ok b r)) w0) = []) /\
  post = [] /\ quiescent lax w /\ timers w = [] /\ outstanding w = [] /\
  (exists w1, session lax f pre = Some (w1, tr) /\ w = set_outstanding [] w1) /\
  (lax = false -> count is_callback tr = 0).
Proof.
  intros Hs Hb H1 H2 H3.
  apply String.eqb_neq in H1, H2, H3.
  assert (Hturn : forall w0, snd (handle f (Response STATUS (Ok b r)) w0) = []).
  { intros w0. rewrite status_turn, Hb, H1, H2, H3. reflexivity. }
  destruct (settled_cut _ _ _ _ _ _ _ _ Hs (or_intror eq_refl))
    as (w1 & tr1 & Hpre & -> & Hq & -> & Ho & Ht & Hcb & _).
  { intros w0. rewrite Hturn. reflexivity. }
  rewrite Hturn, app_nil_r. repeat split; auto.
  exists w1. split; [exact Hpre|].
  destruct (session_cut _ _ _ _ _ _ _ Hs) as (w1' & tr1' & tr2 & Hpre' & He & Hrun & _).
  rewrite Hpre in Hpre'. inversion Hpre'; subst w1' tr1'.
  destruct (session_inv _ _ _ _ _ Hpre) as (p & done & Hsh & _).
  pose proof (response_phase _ _ _ _ _ _ _ Hsh He) as Hp. simpl in Hp. subst p.
  inversion Hsh; subst. simpl in Hrun.
  rewrite Hb, H1, H2, H3 in Hrun. simpl in Hrun. inversion Hrun. reflexivity.
Qed.

Lemma status_unknown_state_witness :
  session false video_0
    (until_polling pending ++ [Timeout 5000; Response STATUS (Ok pending http_ok)]) =
  Some (settled_world 0 true, polling_trace pending 5000 ++ [_statusMedia "77"]) /\
  count is_callback (polling_trace pending 5000 ++ [_statusMedia "77"]) = 0.
Proof.
  assert (Hs : session false video_0
    ((until_polling pending ++ [Timeout 5000]) ++ Response STATUS (Ok pending http_ok) :: []) =
  Some (settled_world 0 true, polling_trace pending 5000 ++ [_statusMedia "77"]))
    by (vm_compute; reflexivity).
  split; [exact Hs|].
  destruct (status_unknown_state false video_0 _ _ _ _ _ _ _ Hs eq_refl
              ltac:(discriminate) ltac:(discriminate) ltac:(discriminate))
    as (_ & _ & _ & _ & _ & _ & H).
  exact (H eq_refl).
Defined.

Lemma shape_waiting_next f lax ms done w :
  shape f (PWaiting ms) done w ->
  timers w = [ms] /\ outstanding w = [] /\
  (forall e, enabled lax w e = true -> e = Timeout ms) /\
  enabled lax w (Timeout ms) = true /\
  snd (handle f (Timeout ms) w) = [_statusMedia (mediaTmpId w)] /\
  shape f PPolling done (fst (handle f (Timeout ms) w)).
Proof.
  intros Hs. split; [|split; [|split; [|split; [|split]]]].
  - inversion Hs; subst. reflexivity.
  - inversion Hs; subst. reflexivity.
  - intros e He. exact (enabled_cases _ _ _ _ _ _ Hs He).
  - inversion Hs; subst. simpl. apply bool_decide_eq_true. apply list_elem_of_here.
  - reflexivity.
  - inversion Hs; subst. simpl. rewrite decide_True by reflexivity. constructor.
Qed.

(** When the turn that handles the response to FINALIZE or STATUS sets a
    timer, the session waits for it: only the timer can fire next, and
    [checkStatus] then requests STATUS. *)
Lemma waiting_cut lax f pre k r post w tr ms :
  session lax f (pre ++ Response k r :: post) = Some (w, tr) ->
  k = FINALIZE \/ k = STATUS ->
  (forall w0, List.filter is_timeout (snd (handle f (Response k r) w0)) = [SetTimeout ms]) ->
  exists w1 tr1 tr2,
    session lax f pre = Some (w1, tr1) /\
    tr = tr1 ++ snd (handle f (Response k r) w1) ++ tr2 /\
    run lax f post (fst (handle f (Response k r) w1)) = Some (w, tr2) /\
    shape f (PWaiting ms) (chunks f) (fst (handle f (Response k r) w1)) /\
    (lax = false -> count is_callback tr1 = 0).
Proof.
  intros Hs Hk Hn.
  destruct (poll_response_cut _ _ _ _ _ _ _ _ Hs Hk)
    as (w1 & tr1 & tr2 & Hpre & Hrun & -> & Hsh & Hcb & _).
  exists w1, tr1, tr2. repeat split; auto.
  destruct (poll_turn_shape f _ w1 k r Hsh) as [(Hz & _)|(ms' & Hms & Hw)].
  - destruct Hk as [-> | ->]; auto.
  - unfold count in Hz. rewrite Hn in Hz. discriminate Hz.
  - rewrite Hn in Hms. inversion Hms; subst. exact Hw.
Qed.

(** C8: the response to FINALIZE.  Without processing_info, the turn that
    handles it invokes the completion callback with a null error and that
    body, no event can follow, and the session contains no timer and no
    STATUS request.  With processing_info, the turn invokes no callback and
    sets the poll timer; only that timer can fire next, and it requests
    STATUS. *)
Theorem finalize_response (lax : bool) (f : file) (pre post : list event)
    (b : body) (r : httpResponse) (w : world) (tr : list action) :
  session lax f (pre ++ Response FINALIZE (Ok b r) :: post) = Some (w, tr) ->
  match processing_info b with
  | None =>
      post = [] /\ quiescent lax w /\
      (exists w1 tr1,
         session lax f pre = Some (w1, tr1) /\
         tr = tr1 ++ [ConsoleLog [VStr "checking async finish"; VBody b];
                      Callback None (Some b) (Some r)]) /\
      count is_timeout tr = 0 /\ count (is_command "STATUS") tr = 0 /\
      (lax = false -> List.filter is_callback tr = [Callback None (Some b) (Some r)])
  | Some info =>
      exists w1 tr1 tr2 ms,
        session lax f pre = Some (w1, tr1) /\
        tr = tr1 ++ [ConsoleLog [VStr "checking async finish"; VBody b];
                     SetTimeout ms] ++ tr2 /\
        count is_callback (snd (handle f (Response FINALIZE (Ok b r)) w1)) = 0 /\
        (lax = false -> count is_callback tr1 = 0) /\
        let w2 := fst (handle f (Response FINALIZE (Ok b r)) w1) in
        timers w2 = [ms] /\ outstanding w2 = [] /\
        (forall e, enabled lax w2 e = true -> e = Timeout ms) /\
        enabled lax w2 (Timeout ms) = true /\
        snd (handle f (Timeout ms) w2) = [_statusMedia (mediaTmpId w2)]
  end.
Proof.
  intros Hs. destruct (processing_info b) as [info|] eqn:Hb.
  - destruct (waiting_cut _ _ _ _ _ _ _ _
                (orDefault (check_after_secs info) 5 * 1000)%Z Hs (or_introl eq_refl))
      as (w1 & tr1 & tr2 & Hpre & -> & Hrun & Hw & Hcb).
    { intros w0. rewrite finalize_turn, Hb. reflexivity. }
    destruct (shape_waiting_next _ lax _ _ _ Hw) as (Ht & Ho & Hnext & Hen & Hst & _).
    exists w1, tr1, tr2, (orDefault (check_after_secs info) 5 * 1000)%Z.
    rewrite finalize_turn, Hb. repeat split; auto.
  - destruct (settled_cut _ _ _ _ _ _ _ _ Hs (or_introl eq_refl))
      as (w1 & tr1 & Hpre & -> & Hq & -> & Ho & Ht & Hcb & Hpoll).
    { intros w0. rewrite finalize_turn, Hb. reflexivity. }
    destruct (Hpoll eq_refl) as [Hp1 Hp2].
    rewrite finalize_turn, Hb. repeat split; auto.
    + exists w1, tr1. auto.
    + rewrite count_app, Hp1. reflexivity.
    + rewrite count_app, Hp2. reflexivity.
    + intros Hlax. rewrite filter_callback_app by auto. reflexivity.
Qed.

Lemma finalize_response_witness :
  (session false jpeg_3 end_after_last_append = Some (settled_world 3 true, jpeg_3_trace) /\
   count is_timeout jpeg_3_trace = 0 /\
   count (is_command "STATUS") jpeg_3_trace = 0) /\
  (session false video_0 (until_polling pending) =
     Some (waiting_world 5000, polling_trace pending 5000) /\
   exists w1 tr1 tr2 ms,
     session false video_0 [Response INIT (Ok ok_body http_ok); End] = Some (w1, tr1) /\
     polling_trace pending 5000 =
     tr1 ++ [ConsoleLog [VStr "checking async finish"; VBody pending]; SetTimeout ms] ++ tr2).
Proof.
  assert (Hs : session false jpeg_3
    ([Response INIT (Ok ok_body http_ok);
      Data; Response APPEND (Ok ok_body http_ok);
      Data; Response APPEND (Ok ok_body http_ok);
      Data; Response APPEND (Ok ok_body http_ok); End] ++
     Response FINALIZE (Ok ok_body http_ok) :: []) =
    Some (settled_world 3 true, jpeg_3_trace)) by (vm_compute; reflexivity).
  assert (Hs' : session false video_0
    ([Response INIT (Ok ok_body http_ok); End] ++ Response FINALIZE (Ok pending http_ok) :: []) =
    Some (waiting_world 5000, polling_trace pending 5000)) by (vm_compute; reflexivity).
  split; (split; [assumption|]).
  - pose proof (finalize_response false jpeg_3 _ _ _ _ _ _ Hs) as H.
    destruct H as (_ & _ & _ & Ht & Hp & _).
    split; [exact Ht|exact Hp].
  - pose proof (finalize_response false video_0 _ _ _ _ _ _ Hs') as H.
    destruct H as (w1 & tr1 & tr2 & ms & Hpre & Htr & _).
    exists w1, tr1, tr2, ms. split; assumption.
Defined.

(** ** The poll delays *)

Lemma orDefault_spec c d :
  orDefault c d =
  match c with
  | Some n => if (n =? 0)%Z then d else n
  | None => d
  end.
Proof. destruct c as [[|n|n]|]; reflexivity. Qed.

Lemma shape_timer f p done w ms :
  shape f p done w -> timers w = [ms] -> p = PWaiting ms /\ done = chunks f.
Proof. intros Hs Ht. inversion Hs; subst; simpl in Ht; inversion Ht. auto. Qed.

Lemma in_progress_turn f b r w :
  in_progress b ->
  handle f (Response STATUS (Ok b r)) w =
  (set_timers (timers (set_outstanding (remove1 STATUS (outstanding w)) w)
               ++ [(orDefault (wait_hint b) 3 * 1000)%Z])
     (set_outstanding (remove1 STATUS (outstanding w)) w),
   [ConsoleLog [optnum (match processing_info b with
                        | Some info => progress_percent info
                        | None => None
                        end); VStr "%"];
    SetTimeout (orDefault (wait_hint b) 3 * 1000)]).
Proof.
  intros (info & Hb & Hst). unfold wait_hint. simpl. rewrite Hb, Hst. reflexivity.
Qed.

Lemma shape_polling_next f lax done w b r :
  shape f PPolling done w -> in_progress b ->
  enabled lax w (Response STATUS (Ok b r)) = true /\
  shape f (PWaiting (orDefault (wait_hint b) 3 * 1000)%Z) done
    (fst (handle f (Response STATUS (Ok b r)) w)).
Proof.
  intros Hs Hb. rewrite (in_progress_turn _ _ _ _ Hb).
  inversion Hs; subst. split; [reflexivity|]. simpl. constructor.
Qed.

Lemma run_cons lax f e evs w :
  enabled lax w e = true ->
  run lax f (e :: evs) w =
  match run lax f evs (fst (handle f e w)) with
  | Some (w2, t) => Some (w2, snd (handle f e w) ++ t)
  | None => None
  end.
Proof. intros He. simpl. rewrite He. destruct (handle f e w). reflexivity. Qed.

(** Polling has no bound: from a pending timer, any number of in_progress
    answers keeps the session polling. *)
Lemma polls_run lax f answers :
  forall ms w,
    shape f (PWaiting ms) (chunks f) w ->
    Forall (fun a => in_progress (fst a)) answers ->
    exists w' tr' ms',
      run lax f (polls ms answers) w = Some (w', tr') /\
      shape f (PWaiting ms') (chunks f) w' /\
      count (is_command "STATUS") tr' = length answers /\
      count is_timeout tr' = length answers /\
      count is_callback tr' = 0.
Proof.
  induction answers as [|[b r] rest IH]; intros ms w Hw Hall.
  - exists w, [], ms. repeat split; auto.
  - inversion Hall as [|? ? Hb Hrest]; subst. simpl in Hb.
    destruct (shape_waiting_next _ lax _ _ _ Hw) as (_ & _ & _ & Hen & Hst & Hp).
    destruct (shape_polling_next _ lax _ _ b r Hp Hb) as (Hen2 & Hw2).
    destruct (IH _ _ Hw2 Hrest) as (w' & tr' & ms' & Hrun & Hw' & Hc1 & Hc2 & Hc3).
    cbn [polls]. rewrite (run_cons _ _ _ _ _ Hen), (run_cons _ _ _ _ _ Hen2), Hrun.
    eexists w', _, ms'. split; [reflexivity|]. rewrite Hst.
    rewrite (in_progress_turn _ _ _ _ Hb). cbn [snd].
    repeat split; auto; obs; rewrite ?Hc1, ?Hc2, ?Hc3; reflexivity.
Qed.

(** C6, amended: the poll delays.  The response to FINALIZE that carries
    processing_info sets a timer of check_after_secs seconds when that field
    is present and not 0, and of 5 seconds when it is absent or 0.  A STATUS
    response whose state is in_progress logs the progress percent and sets
    a timer of check_after_secs seconds when present and not 0, and of 3
    seconds otherwise; only that timer can fire next, and it requests STATUS
    again.  Nothing bounds the number of polls: after any number of
    in_progress answers a timer is pending again. *)
Theorem poll_delays (lax : bool) (f : file) :
  (forall pre post b r info w tr,
     session lax f (pre ++ Response FINALIZE (Ok b r) :: post) = Some (w, tr) ->
     processing_info b = Some info ->
     exists tr1 tr2,
       tr = tr1 ++ [ConsoleLog [VStr "checking async finish"; VBody b];
                    SetTimeout (match check_after_secs info with
                                | Some n => if (n =? 0)%Z then 5 else n
                                | None => 5
                                end * 1000)] ++ tr2) /\
  (forall pre post b r info w tr,
     session lax f (pre ++ Response STATUS (Ok b r) :: post) = Some (w, tr) ->
     processing_info b = Some info ->
     state info = "in_progress" ->
     exists w1 tr1 tr2 ms,
       ms = (match check_after_secs info with
             | Some n => if (n =? 0)%Z then 3 else n
             | None => 3
             end * 1000)%Z /\
       session lax f pre = Some (w1, tr1) /\
       tr = tr1 ++ [ConsoleLog [optnum (progress_percent info); VStr "%"];
                    SetTimeout ms] ++ tr2 /\
       let w2 := fst (handle f (Response STATUS (Ok b r)) w1) in
       timers w2 = [ms] /\
       (forall e, enabled lax w2 e = true -> e = Timeout ms) /\
       enabled lax w2 (Timeout ms) = true /\
       snd (handle f (Timeout ms) w2) = [_statusMedia (mediaTmpId w2)]) /\
  (forall evs w tr ms answers,
     session lax f evs = Some (w, tr) ->
     timers w = [ms] ->
     Forall (fun a => in_progress (fst a)) answers ->
     exists w' tr' ms',
       session lax f (evs ++ polls ms answers) = Some (w', tr ++ tr') /\
       timers w' = [ms'] /\
       count (is_command "STATUS") tr' = length answers /\
       count is_callback tr' = 0).
Proof.
  split; [|split].
  - intros pre post b r info w tr Hs Hb.
    destruct (waiting_cut _ _ _ _ _ _ _ _
                (orDefault (check_after_secs info) 5 * 1000)%Z Hs (or_introl eq_refl))
      as (w1 & tr1 & tr2 & Hpre & -> & _).
    { intros w0. rewrite finalize_turn, Hb. reflexivity. }
    exists tr1, tr2. rewrite finalize_turn, Hb, orDefault_spec. reflexivity.
  - intros pre post b r info w tr Hs Hb Hst.
    destruct (waiting_cut _ _ _ _ _ _ _ _
                (orDefault (check_after_secs info) 3 * 1000)%Z Hs (or_intror eq_refl))
      as (w1 & tr1 & tr2 & Hpre & -> & _ & Hw & _).
    { intros w0. rewrite status_turn, Hb, Hst. reflexivity. }
    destruct (shape_waiting_next _ lax _ _ _ Hw) as (Ht & _ & Hnext & Hen & Hreq & _).
    exists w1, tr1, tr2, (orDefault (check_after_secs info) 3 * 1000)%Z.
    rewrite status_turn, Hb, Hst. simpl.
    repeat split; auto. rewrite orDefault_spec. reflexivity.
  - intros evs w tr ms answers Hs Ht Hall.
    destruct (session_inv _ _ _ _ _ Hs) as (p & done & Hsh & _).
    destruct (shape_timer _ _ _ _ _ Hsh Ht) as [-> ->].
    destruct (polls_run lax f answers ms w Hsh Hall)
      as (w' & tr' & ms' & Hrun & Hw' & Hc1 & _ & Hc3).
    exists w', tr', ms'. rewrite session_app, Hs, Hrun.
    repeat split; auto. inversion Hw'; subst. reflexivity.
Qed.

Lemma poll_delays_witness :
  session false video_0 (until_polling pending) =
    Some (waiting_world 5000, polling_trace pending 5000) /\
  (exists tr1 tr2, polling_trace pending 5000 =
     tr1 ++ [ConsoleLog [VStr "checking async finish"; VBody pending];
             SetTimeout (5 * 1000)] ++ tr2) /\
  exists w' tr' ms',
    session false video_0
      (until_polling pending ++
       polls 5000 [(processing "in_progress" (Some 2%Z) (Some 10%Z) None, http_ok);
                   (processing "in_progress" None (Some 60%Z) None, http_ok)]) =
    Some (w', polling_trace pending 5000 ++ tr') /\
    timers w' = [ms'] /\
    count (is_command "STATUS") tr' = 2 /\
    count is_callback tr' = 0.
Proof.
  assert (Hs : session false video_0
    ([Response INIT (Ok ok_body http_ok); End] ++ Response FINALIZE (Ok pending http_ok) :: []) =
    Some (waiting_world 5000, polling_trace pending 5000)) by (vm_compute; reflexivity).
  destruct (poll_delays false video_0) as (Hfirst & _ & Hmany).
  split; [exact Hs|]. split.
  - exact (Hfirst _ _ _ _ _ _ _ Hs eq_refl).
  - apply (Hmany _ _ _ 5000%Z
             [(processing "in_progress" (Some 2%Z) (Some 10%Z) None, http_ok);
              (processing "in_progress" None (Some 60%Z) None, http_ok)] Hs eq_refl).
    repeat constructor; eexists; split; reflexivity.
Defined.

(** C6 as stated fails: a FINALIZE response whose check_after_secs is 0
    carries the field, and the first wait is 5 seconds, not 0. *)
Lemma zero_hint_uses_default :
  check_after_secs <$> processing_info (processing "pending" (Some 0%Z) None None)
    = Some (Some 0%Z) /\
  session false video_0 (until_polling (processing "pending" (Some 0%Z) None None)) =
    Some (waiting_world 5000,
          polling_trace (processing "pending" (Some 0%Z) None None) 5000) /\
  (5000 <> 0 * 1000)%Z.
Proof.
  split; [reflexivity|]. split; [vm_compute; reflexivity|]. discriminate.
Qed.

(** The script in_progress, in_progress, succeeded of the specification:
    three STATUS requests, then one callback with the last body. *)
Example session_three_polls :
  session false video_0
    (until_polling pending ++
     polls 5000 [(processing "in_progress" (Some 2%Z) (Some 10%Z) None, http_ok);
                 (processing "in_progress" None (Some 60%Z) None, http_ok)] ++
     [Timeout 3000; Response STATUS (Ok (processing "succeeded" None (Some 100%Z) None) http_ok)]) =
  Some (settled_world 0 true,
        polling_trace pending 5000 ++
        [_statusMedia "77";
         ConsoleLog [VNum 10; VStr "%"]; SetTimeout 2000;
         _statusMedia "77";
         ConsoleLog [VNum 60; VStr "%"]; SetTimeout 3000;
         _statusMedia "77";
         Callback None (Some (processing "succeeded" None (Some 100%Z) None)) (Some http_ok)]).
Proof. vm_compute. reflexivity. Qed.

(** * The protocol as a whole

    A second invariant of the sessions: the sequence of the commands, the
    media id of the requests, the acknowledgements of the APPENDs and the
    poll timers. *)

Arguments commands : simpl never.
Arguments init_id : simpl never.

(** ** The command sequence and the media id *)

Lemma commands_app tr1 tr2 : commands (tr1 ++ tr2) = commands tr1 ++ commands tr2.
Proof. apply omap_app. Qed.

Lemma commands_one a :
  commands [a] = match command_of a with Some c => [c] | None => [] end.
Proof. reflexivity. Qed.

Lemma commands_init m s : commands [Post endpoint_upload (initParameters m s)] = ["INIT"].
Proof. rewrite commands_one, command_of_init. reflexivity. Qed.

Lemma commands_append id part n : commands [_appendMedia id part n] = ["APPEND"].
Proof. reflexivity. Qed.

Lemma commands_finalize id : commands [_finalizeMedia id] = ["FINALIZE"].
Proof. reflexivity. Qed.

Lemma commands_status id : commands [_statusMedia id] = ["STATUS"].
Proof. reflexivity. Qed.

Lemma init_id_snoc evs e :
  init_id (evs ++ [e]) =
  match init_id evs with Some id => Some id | None => init_answer e end.
Proof.
  unfold init_id. rewrite omap_app. simpl.
  destruct (omap init_answer evs) as [|x l]; simpl.
  - destruct (init_answer e); reflexivity.
  - reflexivity.
Qed.

Lemma request_ok_mono f oid id a :
  request_ok f oid a -> oid = None \/ oid = Some id -> request_ok f (Some id) a.
Proof.
  intros H Ho. destruct a; simpl in *; auto.
  - destruct H as [H|(id' & Hid & H)]; [left; exact H|].
    right. exists id'. split; [|exact H]. destruct Ho; congruence.
  - destruct H as (id' & Hid & H). exists id'. split; [|exact H].
    destruct Ho; congruence.
Qed.

Lemma request_ok_append f id c i : request_ok f (Some id) (_appendMedia id (base64 c) i).
Proof. right. exists id. split; [reflexivity|]. left. eauto. Qed.

Lemma request_ok_finalize f id : request_ok f (Some id) (_finalizeMedia id).
Proof. right. exists id. split; [reflexivity|]. right. reflexivity. Qed.

Lemma request_ok_status f id : request_ok f (Some id) (_statusMedia id).
Proof. exists id. split; reflexivity. Qed.

Lemma reqs_extend f evs e tr :
  Forall (request_ok f (init_id evs)) tr ->
  Forall (request_ok f (init_id (evs ++ [e]))) tr.
Proof.
  intros Hall. eapply Forall_impl; [exact Hall|].
  intros a Ha. rewrite init_id_snoc.
  destruct (init_id evs) as [id|] eqn:Hid; [exact Ha|].
  destruct (init_answer e) as [id|]; [|exact Ha].
  eapply request_ok_mono; [exact Ha|]. left. reflexivity.
Qed.

Lemma replicate_snoc {A} n (x : A) : replicate n x ++ [x] = replicate (S n) x.
Proof. induction n as [|n IH]; simpl; [reflexivity|]. rewrite IH. reflexivity. Qed.

Lemma count_timeout_append id part n tr :
  count is_timeout (_appendMedia id part n :: tr) = count is_timeout tr.
Proof. reflexivity. Qed.

Lemma count_timeout_finalize id tr :
  count is_timeout (_finalizeMedia id :: tr) = count is_timeout tr.
Proof. reflexivity. Qed.

Lemma count_timeout_status id tr :
  count is_timeout (_statusMedia id :: tr) = count is_timeout tr.
Proof. reflexivity. Qed.

Lemma count_callback_append id part n tr :
  count is_callback (_appendMedia id part n :: tr) = count is_callback tr.
Proof. reflexivity. Qed.

Lemma count_callback_finalize id tr :
  count is_callback (_finalizeMedia id :: tr) = count is_callback tr.
Proof. reflexivity. Qed.

Lemma count_callback_status id tr :
  count is_callback (_statusMedia id :: tr) = count is_callback tr.
Proof. reflexivity. Qed.

Lemma end_after_failure_snoc evs e :
  end_after_failure (evs ++ [e]) =
  end_after_failure evs || (existsb is_append_failure evs && is_end e).
Proof.
  induction evs as [|a evs IH]; simpl.
  - rewrite andb_false_r. reflexivity.
  - rewrite IH, existsb_app. simpl.
    destruct (is_append_failure a), (existsb is_end evs), (end_after_failure evs),
      (existsb is_append_failure evs), (is_end e); reflexivity.
Qed.

Lemma count_timeout_init m s tr :
  count is_timeout (Post endpoint_upload (initParameters m s) :: tr) = count is_timeout tr.
Proof. reflexivity. Qed.

Ltac use_eqs :=
  repeat match goal with
         | H : ?x = ?x -> _ |- _ => specialize (H eq_refl)
         | H : ?P -> _, H' : ?P |- _ => specialize (H H')
         end.

Ltac count_tac :=
  rewrite ?count_app, ?count_timeout_append, ?count_timeout_finalize,
    ?count_timeout_status, ?count_callback_append, ?count_callback_finalize,
    ?count_callback_status;
  rewrite ?count_cons, ?count_nil, ?is_command_append, ?is_command_finalize,
    ?is_command_status;
  rewrite ?count_ev_app, ?count_ev_one, ?existsb_app; simpl;
  repeat match goal with
         | H : processing_info _ = _ |- _ => rewrite H; simpl
         | H : String.eqb _ _ = _ |- _ => rewrite H; simpl
         end.

Ltac proto_arith :=
  simpl; intros; use_eqs; count_tac;
  rewrite ?length_app, ?orb_false_r, ?orb_true_r; simpl;
  try congruence; try lia; auto.

Ltac eaf_tac :=
  unfold callbacks_ok; simpl; intros;
  repeat match goal with
         | H : end_after_failure (_ ++ [_]) = false |- _ =>
             rewrite end_after_failure_snoc in H;
             apply orb_false_elim in H; destruct H
         end;
  use_eqs;
  try match goal with
      | H2 : _ && _ = false, Hf : existsb is_append_failure _ = true |- _ =>
          rewrite Hf in H2; discriminate H2
      end;
  rewrite ?end_after_failure_snoc; count_tac;
  repeat match goal with
         | H : end_after_failure _ = false |- _ => rewrite H
         | H : existsb is_append_failure _ = false |- _ => rewrite H
         end;
  rewrite ?andb_false_r, ?andb_true_r; simpl;
  try congruence; try lia; auto.

Ltac reqs_tac Hid Hr :=
  apply Forall_app; split; [apply reqs_extend; exact Hr|];
  rewrite init_id_snoc, Hid; simpl;
  repeat match goal with
         | |- Forall _ [] => apply Forall_nil_2
         | |- Forall _ (_ :: _) => apply Forall_cons; split
         | |- request_ok _ _ (_appendMedia _ _ _) => apply request_ok_append
         | |- request_ok _ _ (_finalizeMedia _) => apply request_ok_finalize
         | |- request_ok _ _ (_statusMedia _) => apply request_ok_status
         | |- request_ok _ _ _ => exact I
         end.

Ltac cmds_tac Hcm Hk :=
  simpl; use_eqs;
  rewrite ?commands_app, ?app_nil_r, ?Hcm,
    ?commands_append, ?commands_finalize, ?commands_status, ?length_app;
  count_tac;
  match type of Hk with
  | _ = _ => rewrite ?Hk
  | _ => idtac
  end;
  rewrite ?Nat.add_1_r, ?Nat.add_0_r, <- ?replicate_snoc, <- ?app_assoc;
  simpl; rewrite <- ?app_assoc; simpl; auto.

Ltac proto_tac Hcm Hk Hid Hr :=
  constructor;
  [ cmds_tac Hcm Hk
  | proto_arith
  | proto_arith
  | rewrite init_id_snoc, Hid; reflexivity
  | reqs_tac Hid Hr
  | proto_arith
  | proto_arith
  | proto_arith
  | proto_arith
  | proto_arith
  | proto_arith
  | proto_arith
  | proto_arith
  | eaf_tac
  | eaf_tac ].

Lemma proto_inv_upload f lax : ProtoInv f lax [] (snd (upload f)) (fst (upload f)).
Proof.
  unfold upload, _initMedia.
  destruct (statSync_size f) as [e|size] eqn:Hsz; simpl.
  - exists PDead, []. split; [constructor|].
    constructor; simpl; auto; try (intros; discriminate).
    apply Forall_cons; split; [exact I|apply Forall_nil_2].
  - destruct (size <? maxSizeBytes (mime_lookup f))%Z; simpl.
    + exists PInit, []. split; [constructor|].
      constructor; simpl; auto; try (intros; discriminate).
      * rewrite commands_init. reflexivity.
      * intros _. rewrite count_cons, is_command_init. reflexivity.
      * rewrite count_timeout_init, count_cons, is_command_init. reflexivity.
      * apply Forall_cons; split; [|apply Forall_nil_2].
        left. exists size. auto.
      * rewrite count_cons, is_command_init. reflexivity.
    + exists PDead, []. split; [constructor|].
      constructor; simpl; auto; try (intros; discriminate).
      apply Forall_cons; split; [exact I|apply Forall_nil_2].
Qed.

Lemma proto_inv_step f lax evs tr w e :
  ProtoInv f lax evs tr w -> enabled lax w e = true ->
  ProtoInv f lax (evs ++ [e]) (tr ++ snd (handle f e w)) (fst (handle f e w)).
Proof.
  intros (p & done & Hs & Hf) He.
  pose proof (enabled_cases _ _ _ _ _ _ Hs He) as Hc. clear He.
  destruct Hf as [Hcm Hk Ht Hid Hr Hnf Hack Hend Hsch Hlax Hdata Hpolls Hfailed Heaf Hcb].
  inversion Hs; subst; clear Hs; simpl in *.
  - (* PInit *)
    destruct Hc as [r ->]. destruct r as [err|b resp]; simpl.
    + exists PDead, []. split; [constructor|]. proto_tac Hcm Hk Hid Hr.
    + exists PFlowing, []. split; [apply (shape_flowing f _ [] (chunks f)); reflexivity|].
      proto_tac Hcm Hk Hid Hr.
  - destruct Hc.
  - (* PFlowing *)
    destruct Hc as [[-> (c & rest & Hu)]|[-> Hu]]; inversion Hu; subst; simpl.
    + exists (PAppending false), (done ++ [c]). split.
      * constructor; [rewrite <- app_assoc; assumption|discriminate|].
        rewrite length_app. simpl. lia.
      * proto_tac Hcm Hk Hid Hr.
    + rewrite app_nil_r in H. subst done.
      exists PFinalizing, (chunks f). split; [constructor|].
      proto_tac Hcm Hk Hid Hr.
  - (* PAppending *)
    destruct Hc as [[r ->]|(-> & -> & -> & Hu)].
    + destruct r as [err|b resp]; simpl.
      * exists (PAppendFailed e0), done. split; [constructor; assumption|].
        proto_tac Hcm Hk Hid Hr.
      * destruct e0; simpl.
        -- assert (u = []) by auto. subst u. rewrite app_nil_r in H. subst done.
           exists PFinalizing, (chunks f). split; [constructor|].
           proto_tac Hcm Hk Hid Hr.
        -- exists PFlowing, done. split; [rewrite H1; constructor; assumption|].
           proto_tac Hcm Hk Hid Hr.
    + inversion Hu; subst. exists (PAppending true), done.
      split; [constructor; auto|]. proto_tac Hcm Hk Hid Hr.
  - (* PAppendFailed *)
    destruct Hc as (-> & -> & -> & Hu). inversion Hu; subst.
    rewrite app_nil_r in H. subst done.
    exists PFinalizing, (chunks f). split; [constructor|].
    proto_tac Hcm Hk Hid Hr.
  - (* PFinalizing *)
    destruct Hc as [r ->]. destruct r as [err|b resp]; simpl.
    + exists PSettled, (chunks f). split; [constructor|]. proto_tac Hcm Hk Hid Hr.
    + destruct (processing_info b) as [info|] eqn:Hpi; simpl.
      * eexists (PWaiting _), (chunks f). split; [constructor|].
        proto_tac Hcm Hk Hid Hr.
      * exists PSettled, (chunks f). split; [constructor|]. proto_tac Hcm Hk Hid Hr.
  - (* PWaiting *)
    subst e. simpl. rewrite decide_True by reflexivity.
    exists PPolling, (chunks f). split; [constructor|].
    proto_tac Hcm Hk Hid Hr.
  - (* PPolling *)
    destruct Hc as [r ->]. destruct r as [err|b resp]; simpl.
    + exists PSettled, (chunks f). split; [constructor|]. proto_tac Hcm Hk Hid Hr.
    + destruct (processing_info b) as [info|] eqn:Hpi; simpl.
      * destruct (String.eqb (state info) "in_progress") eqn:Hip; simpl.
        { eexists (PWaiting _), (chunks f). split; [constructor|].
          proto_tac Hcm Hk Hid Hr. }
        destruct (String.eqb (state info) "failed"); simpl.
        { destruct (error info); simpl;
            exists PSettled, (chunks f); (split; [constructor|]);
            proto_tac Hcm Hk Hid Hr. }
        destruct (String.eqb (state info) "succeeded"); simpl;
          exists PSettled, (chunks f); (split; [constructor|]);
          proto_tac Hcm Hk Hid Hr.
      * exists PSettled, (chunks f). split; [constructor|]. proto_tac Hcm Hk Hid Hr.
  - destruct Hc.
Qed.

Lemma session_proto_inv f lax evs w tr :
  session lax f evs = Some (w, tr) -> ProtoInv f lax evs tr w.
Proof.
  revert w tr. induction evs as [|e evs IH] using rev_ind; intros w tr Hs.
  - unfold session in Hs. pose proof (proto_inv_upload f lax) as H.
    destruct (upload f) as [w0 a0]. simpl in Hs.
    inversion Hs; subst. rewrite app_nil_r. exact H.
  - rewrite session_app in Hs.
    destruct (session lax f evs) as [[w1 t1]|]; [|discriminate].
    rewrite run_one in Hs.
    destruct (enabled lax w1 e) eqn:He; [|discriminate].
    inversion Hs; subst. apply proto_inv_step; auto.
Qed.
(** ** The order of the protocol commands *)

Lemma not_finalize_in_appends n : "FINALIZE" ∉ "INIT" :: replicate n "APPEND".
Proof.
  intros H. apply elem_of_cons in H as [H|H]; [discriminate|].
  apply elem_of_replicate in H as [H _]. discriminate.
Qed.

Lemma phase_of_finalize f lax p done evs tr w :
  protocol_facts f lax p done evs tr w -> "FINALIZE" ∈ commands tr -> finalized p = 1.
Proof.
  intros [Hcm _ _ _ _ _ _ _ _ _ _ _ _ _ _] Hin.
  destruct p; simpl in *; try reflexivity; exfalso.
  - rewrite Hcm in Hin. apply elem_of_one in Hin. discriminate.
  - destruct Hcm as [[Hcm _]|Hcm]; rewrite Hcm in Hin.
    + apply elem_of_nil in Hin. exact Hin.
    + apply elem_of_one in Hin. discriminate.
  - rewrite Hcm in Hin. exact (not_finalize_in_appends _ Hin).
  - rewrite Hcm in Hin. exact (not_finalize_in_appends _ Hin).
  - rewrite Hcm in Hin. exact (not_finalize_in_appends _ Hin).
Qed.

Lemma finalize_in_commands f lax p done evs tr w :
  protocol_facts f lax p done evs tr w -> finalized p = 1 -> "FINALIZE" ∈ commands tr.
Proof.
  intros [Hcm _ _ _ _ _ _ _ _ _ _ _ _ _ _] Hp.
  destruct p; simpl in *; try discriminate; rewrite Hcm;
    apply elem_of_cons; right; apply elem_of_app; right; apply elem_of_cons; left;
    reflexivity.
Qed.

(** X1: the commands a session sends, in order, are INIT, then one APPEND
    per chunk the stream has delivered so far, then, only when every chunk
    of the file has been delivered, FINALIZE followed by one STATUS per
    poll timer that has fired, and nothing else; or nothing at all, which
    happens only when [upload] has not posted INIT and no event has run. *)
Theorem command_order (lax : bool) (f : file) (evs : list event)
    (w : world) (tr : list action) :
  session lax f evs = Some (w, tr) ->
  let n := count_ev is_data evs in
  let k := count_ev is_fired evs in
  n <= length (chunks f) /\
  ((commands tr = [] /\ evs = []) \/
   (commands tr = "INIT" :: replicate n "APPEND" /\ k = 0) \/
   (n = length (chunks f) /\
    commands tr =
      "INIT" :: replicate n "APPEND" ++ "FINALIZE" :: replicate k "STATUS")).
Proof.
  intros Hs n k.
  destruct (session_proto_inv _ _ _ _ _ Hs) as (p & done & Hsh & Hf).
  destruct (shape_unread _ _ _ _ Hsh) as (u & Hu & _).
  destruct Hf as [Hcm Hk _ _ _ _ _ _ _ _ Hdata Hpolls _ _ _].
  assert (Hn : n = length done) by exact Hdata.
  assert (Hkk : count (is_command "STATUS") tr = k) by exact Hpolls.
  rewrite Hkk in Hcm, Hk. rewrite Hn. clear Hkk Hpolls Hdata Hn n.
  split; [rewrite Hu, length_app; lia|].
  destruct p; simpl in Hcm, Hk.
  - inversion Hsh; subst. right. left. split; [exact Hcm|exact (Hk eq_refl)].
  - destruct Hcm as [Hcm|Hcm]; [left; exact Hcm|].
    inversion Hsh; subst. right. left. split; [exact Hcm|exact (Hk eq_refl)].
  - right. left. split; [exact Hcm|exact (Hk eq_refl)].
  - right. left. split; [exact Hcm|exact (Hk eq_refl)].
  - right. left. split; [exact Hcm|exact (Hk eq_refl)].
  - inversion Hsh; subst. right. right. split; [reflexivity|exact Hcm].
  - inversion Hsh; subst. right. right. split; [reflexivity|exact Hcm].
  - inversion Hsh; subst. right. right. split; [reflexivity|exact Hcm].
  - inversion Hsh; subst. right. right. split; [reflexivity|exact Hcm].
Qed.

Lemma command_order_witness :
  session false jpeg_3 end_after_last_append = Some (settled_world 3 true, jpeg_3_trace) /\
  count_ev is_data end_after_last_append = 3 /\
  count_ev is_fired end_after_last_append = 0 /\
  commands jpeg_3_trace = "INIT" :: replicate 3 "APPEND" ++ "FINALIZE" :: replicate 0 "STATUS".
Proof.
  assert (Hs : session false jpeg_3 end_after_last_append =
               Some (settled_world 3 true, jpeg_3_trace)) by (vm_compute; reflexivity).
  split; [exact Hs|]. split; [reflexivity|]. split; [reflexivity|].
  destruct (command_order false jpeg_3 _ _ _ Hs) as (_ & [(_ & H)|[(H & _)|(_ & H)]]).
  - discriminate H.
  - vm_compute in H. discriminate H.
  - exact H.
Defined.

(** ** The media id of the requests *)

Lemma request_ok_fields f id a :
  request_ok f (Some id) a -> is_transport a = true ->
  endpoint_of a = Some "media/upload" /\
  (is_get a = true <-> command_of a = Some "STATUS") /\
  (command_of a = Some "INIT" \/
   (str_field "media_id" (params_of a) = Some id /\
    command_of a ∈ [Some "APPEND"; Some "FINALIZE"; Some "STATUS"])).
Proof.
  intros H Ht. destruct a; try discriminate Ht; simpl in H.
  - destruct H as [(size & _ & ->)|(id' & Hid & [(c & i & ->)| ->])];
      try (inversion Hid; subst id').
    + split; [reflexivity|]. rewrite command_of_init.
      split; [split; discriminate|]. left. reflexivity.
    + split; [reflexivity|]. split; [split; discriminate|].
      right. split; [reflexivity|]. apply list_elem_of_here.
    + split; [reflexivity|]. split; [split; discriminate|].
      right. split; [reflexivity|]. apply list_elem_of_further, list_elem_of_here.
  - destruct H as (id' & Hid & ->). inversion Hid; subst id'.
    split; [reflexivity|]. split; [split; reflexivity|].
    right. split; [reflexivity|].
    apply list_elem_of_further, list_elem_of_further, list_elem_of_here.
Qed.

Lemma request_ok_init f a :
  request_ok f None a -> is_transport a = true ->
  endpoint_of a = Some "media/upload" /\ is_get a = false /\
  command_of a = Some "INIT".
Proof.
  intros H Ht. destruct a; try discriminate Ht; simpl in H.
  - destruct H as [(size & _ & ->)|(id' & Hid & _)]; [|discriminate Hid].
    rewrite command_of_init. repeat split.
  - destruct H as (id' & Hid & _). discriminate Hid.
Qed.

(** X2: every request of a session goes to the endpoint media/upload; it
    is a GET exactly when it is a STATUS, a POST otherwise; and every
    request but INIT carries, as [media_id], the [media_id_string] of the
    response to INIT, which is also what [mediaTmpId] holds from then on. *)
Theorem requests_carry_media_id (lax : bool) (f : file) (evs : list event)
    (w : world) (tr : list action) (a : action) :
  session lax f evs = Some (w, tr) -> a ∈ tr -> is_transport a = true ->
  endpoint_of a = Some "media/upload" /\
  (is_get a = true <-> command_of a = Some "STATUS") /\
  (command_of a = Some "INIT" \/
   exists id, init_id evs = Some id /\ mediaTmpId w = id /\
              str_field "media_id" (params_of a) = Some id /\
              command_of a ∈ [Some "APPEND"; Some "FINALIZE"; Some "STATUS"]).
Proof.
  intros Hs Hin Ht.
  destruct (session_proto_inv _ _ _ _ _ Hs) as (p & done & Hsh & Hf).
  destruct Hf as [_ _ _ Hid Hr _ _ _ _ _ _ _ _ _ _].
  rewrite Forall_forall in Hr. specialize (Hr a Hin).
  destruct (init_id evs) as [id|] eqn:Hi.
  - destruct (request_ok_fields _ _ _ Hr Ht) as (He & Hg & Hc).
    split; [exact He|]. split; [exact Hg|].
    destruct Hc as [Hc|(Hm & Hc)]; [left; exact Hc|].
    right. exists id. repeat split; auto.
    destruct p; simpl in Hid; congruence.
  - destruct (request_ok_init _ _ Hr Ht) as (He & Hg & Hc).
    split; [exact He|]. split; [|left; exact Hc].
    rewrite Hg, Hc. split; discriminate.
Qed.

Lemma requests_carry_media_id_witness :
  session false jpeg_3 end_after_last_append = Some (settled_world 3 true, jpeg_3_trace) /\
  _appendMedia "77" "YQ==" 1 ∈ jpeg_3_trace /\
  init_id end_after_last_append = Some "77" /\
  str_field "media_id" (params_of (_appendMedia "77" "YQ==" 1)) = Some "77".
Proof.
  assert (Hs : session false jpeg_3 end_after_last_append =
               Some (settled_world 3 true, jpeg_3_trace)) by (vm_compute; reflexivity).
  assert (Hin : _appendMedia "77" "YQ==" 1 ∈ jpeg_3_trace).
  { apply list_elem_of_further, list_elem_of_further, list_elem_of_here. }
  split; [exact Hs|]. split; [exact Hin|].
  destruct (requests_carry_media_id false jpeg_3 _ _ _ _ Hs Hin eq_refl)
    as (_ & _ & [Hc|(id & Hid & _ & Hm & _)]); [discriminate Hc|].
  split; [reflexivity|]. rewrite Hm. rewrite <- Hid. reflexivity.
Defined.

(** ** FINALIZE waits for the acknowledgements *)

(** X3: when FINALIZE has been sent, the stream has signalled its end, the
    transport has answered exactly one APPEND per chunk of the file, none
    is outstanding, and [_isUploading] is false; with a stream that signals
    its end only while it flows, none of these answers was an error. *)
Theorem finalize_after_acknowledged (lax : bool) (f : file) (evs : list event)
    (w : world) (tr : list action) :
  session lax f evs = Some (w, tr) -> "FINALIZE" ∈ commands tr ->
  existsb is_end evs = true /\
  count_ev is_append_response evs = length (chunks f) /\
  (APPEND ∉ outstanding w) /\
  _isUploading w = false /\
  (lax = false -> existsb is_append_failure evs = false).
Proof.
  intros Hs Hin.
  destruct (session_proto_inv _ _ _ _ _ Hs) as (p & done & Hsh & Hf).
  pose proof (phase_of_finalize _ _ _ _ _ _ _ Hf Hin) as Hp.
  destruct (shape_backpressure _ _ _ _ Hsh) as (_ & _ & Hidle).
  destruct Hf as [_ _ _ _ _ Hnf Hack Hend _ _ _ _ _ _ _].
  destruct p; simpl in Hp; try discriminate Hp; simpl in *;
    inversion Hsh; subst; simpl in *;
    (split; [exact Hend|]); (split; [lia|]);
    (split; [apply Hidle; reflexivity|]); (split; [reflexivity|]); auto.
Qed.

Lemma finalize_after_acknowledged_witness :
  session false jpeg_3 end_after_last_append = Some (settled_world 3 true, jpeg_3_trace) /\
  "FINALIZE" ∈ commands jpeg_3_trace /\
  count_ev is_append_response end_after_last_append = 3.
Proof.
  assert (Hs : session false jpeg_3 end_after_last_append =
               Some (settled_world 3 true, jpeg_3_trace)) by (vm_compute; reflexivity).
  assert (Hin : "FINALIZE" ∈ commands jpeg_3_trace).
  { vm_compute. do 4 apply list_elem_of_further. apply list_elem_of_here. }
  split; [exact Hs|]. split; [exact Hin|].
  destruct (finalize_after_acknowledged false jpeg_3 _ _ _ Hs Hin) as (_ & H & _).
  exact H.
Defined.

(** ** Timers and polls *)

(** X4: a poll timer is set once for every FINALIZE response that carries
    processing_info and for every STATUS response whose state is
    in_progress, and for nothing else; every timer set has either fired
    into exactly one STATUS request or is still pending; at most one timer
    is pending, and none while a STATUS request is outstanding. *)
Theorem timers_balance (lax : bool) (f : file) (evs : list event)
    (w : world) (tr : list action) :
  session lax f evs = Some (w, tr) ->
  count is_timeout tr = count_ev schedules_poll evs /\
  count (is_command "STATUS") tr + length (timers w) = count is_timeout tr /\
  length (timers w) <= 1 /\
  (STATUS ∈ outstanding w -> timers w = []).
Proof.
  intros Hs.
  destruct (session_proto_inv _ _ _ _ _ Hs) as (p & done & Hsh & Hf).
  destruct Hf as [_ _ Ht _ _ _ _ _ Hsch _ _ _ _ _ _].
  split; [exact Hsch|].
  inversion Hsh; subst; simpl in *; repeat split; auto; try lia;
    intros H;
    first [ apply elem_of_nil in H; destruct H
          | apply elem_of_one in H; discriminate H ].
Qed.

Lemma timers_balance_witness :
  session false video_0 no_info_after_finalize =
    Some (settled_world 0 true,
          polling_trace (processing "pending" None None None) 5000 ++
          [_statusMedia "77"; Throws (TypeError "state")]) /\
  count is_timeout
    (polling_trace (processing "pending" None None None) 5000 ++
     [_statusMedia "77"; Throws (TypeError "state")]) =
  count_ev schedules_poll no_info_after_finalize.
Proof.
  assert (Hs : session false video_0 no_info_after_finalize =
    Some (settled_world 0 true,
          polling_trace (processing "pending" None None None) 5000 ++
          [_statusMedia "77"; Throws (TypeError "state")]))
    by (vm_compute; reflexivity).
  split; [exact Hs|].
  destruct (timers_balance false video_0 _ _ _ Hs) as (H & _).
  exact H.
Defined.
(** ** What [upload] does before it returns *)

(** X5: [upload] does exactly one observable thing before it returns.  It
    posts INIT exactly when [statSync] succeeds with a size strictly below
    the ceiling (512 MiB for video/mp4, 15 MiB otherwise); INIT is then the
    only outstanding request.  Otherwise it leaves the uploader as it was
    constructed. *)
Theorem upload_outcome (f : file) :
  let limit := (if String.eqb (mime_lookup f) "video/mp4"
                then 512 * 1024 * 1024 else 15 * 1024 * 1024)%Z in
  length (snd (upload f)) = 1 /\
  (count is_transport (snd (upload f)) = 1 <->
   exists size, statSync_size f = inr size /\ (size < limit)%Z) /\
  (count is_transport (snd (upload f)) = 1 ->
   commands (snd (upload f)) = ["INIT"] /\ outstanding (fst (upload f)) = [INIT]) /\
  (count is_transport (snd (upload f)) <> 1 -> fst (upload f) = FileUploader).
Proof.
  intros limit. unfold upload, _initMedia. rewrite maxSizeBytes_spec.
  subst limit.
  set (limit := (if String.eqb (mime_lookup f) "video/mp4"
                 then 512 * 1024 * 1024 else 15 * 1024 * 1024)%Z).
  destruct (statSync_size f) as [e|size]; simpl.
  - split; [reflexivity|]. split; [|split; [discriminate|reflexivity]].
    split; [discriminate|]. intros (size & H & _). discriminate H.
  - destruct (Z.ltb_spec size limit) as [Hlt|Hge]; simpl.
    + split; [reflexivity|]. split; [|split].
      * split; [|reflexivity]. intros _. exists size. auto.
      * intros _. rewrite commands_init. auto.
      * intros H. exfalso. apply H. reflexivity.
    + split; [reflexivity|]. split; [|split; [discriminate|reflexivity]].
      split; [discriminate|]. intros (s & H & Hlt). inversion H; subst. lia.
Qed.

(** ** The arguments of the completion callback *)

Lemma handle_callback_args f e w :
  forallb callback_args_ok (snd (handle f e w)) = true.
Proof.
  destruct e as [k r| | |ms]; simpl.
  - destruct k, r as [err|b resp]; simpl; try reflexivity.
    + destruct (_isUploadComplete _); reflexivity.
    + destruct (processing_info b); reflexivity.
    + destruct (processing_info b) as [info|]; [|reflexivity].
      destruct (String.eqb (state info) "in_progress"); [reflexivity|].
      destruct (String.eqb (state info) "failed"); [destruct (error info); reflexivity|].
      destruct (String.eqb (state info) "succeeded"); reflexivity.
  - destruct (mediaFile w) as [s|]; [|reflexivity].
    destruct (unread s); reflexivity.
  - destruct (mediaFile w) as [s|]; [|reflexivity].
    unfold onEnd. destruct (_isUploadComplete _); reflexivity.
  - reflexivity.
Qed.

Lemma run_forallb (P : action -> bool) lax f :
  (forall e w, forallb P (snd (handle f e w)) = true) ->
  forall evs w w' tr,
    run lax f evs w = Some (w', tr) -> forallb P tr = true.
Proof.
  intros HP. induction evs as [|e evs IH]; intros w w' tr Hr; simpl in Hr.
  - inversion Hr. reflexivity.
  - destruct (enabled lax w e); [|discriminate].
    pose proof (HP e w) as He.
    destruct (handle f e w) as [w1 a]. simpl in He.
    destruct (run lax f evs w1) as [[w2 t]|] eqn:Hrun; [|discriminate].
    inversion Hr; subst. rewrite forallb_app, He. simpl. eapply IH. exact Hrun.
Qed.

(** X6: the completion callback is never given both an error and a
    result.  Every invocation of a session is either [cb(err)], a truthy
    error with no body and no response, or [cb(null, bodyObj, resp)] with
    both of them. *)
Theorem callback_arguments (lax : bool) (f : file) (evs : list event)
    (w : world) (tr : list action) :
  session lax f evs = Some (w, tr) -> forallb callback_args_ok tr = true.
Proof.
  unfold session. intros Hs.
  assert (H0 : forallb callback_args_ok (snd (upload f)) = true).
  { unfold upload. destruct (_initMedia f); reflexivity. }
  destruct (upload f) as [w0 a0]. simpl in H0.
  destruct (run lax f evs w0) as [[w1 t]|] eqn:Hrun; [|discriminate].
  inversion Hs; subst. rewrite forallb_app, H0. simpl.
  eapply run_forallb; [apply handle_callback_args|exact Hrun].
Qed.

Lemma callback_arguments_witness :
  session false jpeg_3 end_after_last_append = Some (settled_world 3 true, jpeg_3_trace) /\
  forallb callback_args_ok jpeg_3_trace = true.
Proof.
  assert (Hs : session false jpeg_3 end_after_last_append =
               Some (settled_world 3 true, jpeg_3_trace)) by (vm_compute; reflexivity).
  split; [exact Hs|].
  exact (callback_arguments false jpeg_3 _ _ _ Hs).
Defined.

(** X7: what can make a turn of the event loop invoke the completion
    callback: a response that is an error, a FINALIZE response without
    processing_info, or a STATUS response whose state is failed or
    succeeded.  The stream listeners, the poll timer and the successful
    responses to INIT and APPEND never invoke it, whatever the state of
    the uploader. *)
Theorem callback_only_from_responses (f : file) (e : event) (w : world) :
  count is_callback (snd (handle f e w)) <> 0 ->
  exists k r,
    e = Response k r /\
    match r with
    | Fail _ => True
    | Ok b _ =>
        (k = FINALIZE /\ processing_info b = None) \/
        (k = STATUS /\
         exists info, processing_info b = Some info /\
                      (state info = "failed" \/ state info = "succeeded"))
    end.
Proof.
  destruct e as [k r| | |ms]; simpl.
  - intros H. exists k, r. split; [reflexivity|].
    destruct r as [err|b resp]; [exact I|].
    destruct k; simpl in H.
    + exfalso. apply H. reflexivity.
    + exfalso. apply H. destruct (_isUploadComplete _); reflexivity.
    + left. split; [reflexivity|].
      destruct (processing_info b); [|reflexivity].
      exfalso. apply H. reflexivity.
    + right. split; [reflexivity|].
      destruct (processing_info b) as [info|]; [|exfalso; apply H; reflexivity].
      exists info. split; [reflexivity|].
      destruct (String.eqb (state info) "in_progress");
        [exfalso; apply H; reflexivity|].
      destruct (String.eqb_spec (state info) "failed") as [Hf|_]; [left; exact Hf|].
      destruct (String.eqb_spec (state info) "succeeded") as [Hsu|_]; [right; exact Hsu|].
      exfalso. apply H. reflexivity.
  - intros H. exfalso. apply H.
    destruct (mediaFile w) as [s|]; [|reflexivity].
    destruct (unread s); reflexivity.
  - intros H. exfalso. apply H.
    destruct (mediaFile w) as [s|]; [|reflexivity].
    unfold onEnd. destruct (_isUploadComplete _); reflexivity.
  - intros H. exfalso. apply H. reflexivity.
Qed.

Lemma callback_only_from_responses_witness :
  count is_callback
    (snd (handle jpeg_3 (Response STATUS (Ok (processing "succeeded" None None None) http_ok))
            (settled_world 0 true))) = 1 /\
  exists info, processing_info (processing "succeeded" None None None) = Some info /\
               (state info = "failed" \/ state info = "succeeded").
Proof.
  split; [reflexivity|].
  destruct (callback_only_from_responses jpeg_3
              (Response STATUS (Ok (processing "succeeded" None None None) http_ok))
              (settled_world 0 true) ltac:(discriminate))
    as (k & r & He & Hr).
  inversion He; subst k r. destruct Hr as [(Hk & _)|(_ & H)]; [discriminate Hk|exact H].
Defined.
(** ** The two flags of the uploader *)

(** X8: what the flags mean in every state a session can reach.
    [_isFileStreamEnded] is true exactly when the stream has signalled its
    end; [_isUploading] is true exactly while an APPEND is outstanding.
    Once FINALIZE has been sent [_isUploadComplete()] stays true; with a
    stream that signals its end only while it flows, it is true exactly
    when FINALIZE has been sent. *)
Theorem flags_meaning (lax : bool) (f : file) (evs : list event)
    (w : world) (tr : list action) :
  session lax f evs = Some (w, tr) ->
  _isFileStreamEnded w = existsb is_end evs /\
  (_isUploading w = true <-> APPEND ∈ outstanding w) /\
  ("FINALIZE" ∈ commands tr -> _isUploadComplete w = true) /\
  (lax = false -> _isUploadComplete w = true -> "FINALIZE" ∈ commands tr).
Proof.
  intros Hs.
  destruct (session_proto_inv _ _ _ _ _ Hs) as (p & done & Hsh & Hf).
  destruct (shape_backpressure _ _ _ _ Hsh) as (_ & Hup & Hidle).
  pose proof (phase_of_finalize _ _ _ _ _ _ _ Hf) as Hfin.
  pose proof (finalize_in_commands _ _ _ _ _ _ _ Hf) as Hsent.
  destruct Hf as [_ _ _ _ _ _ _ Hend _ Hlax _ _ _ _ _].
  split; [|split; [|split]].
  - rewrite Hend. inversion Hsh; subst; reflexivity.
  - split; [|intros H; apply Hup; exact H].
    intros H. inversion Hsh; subst; simpl in H; try discriminate H.
    apply list_elem_of_here.
  - intros Hin. specialize (Hfin Hin).
    inversion Hsh; subst; simpl in Hfin; try discriminate Hfin; reflexivity.
  - intros -> Hc. apply Hsent.
    inversion Hsh; subst; simpl in *; try discriminate Hc; try reflexivity.
    destruct e; [|discriminate Hc].
    specialize (Hlax eq_refl eq_refl). discriminate Hlax.
Qed.

Lemma flags_meaning_witness :
  session false jpeg_3 end_after_last_append = Some (settled_world 3 true, jpeg_3_trace) /\
  _isFileStreamEnded (settled_world 3 true) = existsb is_end end_after_last_append /\
  _isUploadComplete (settled_world 3 true) = true.
Proof.
  assert (Hs : session false jpeg_3 end_after_last_append =
               Some (settled_world 3 true, jpeg_3_trace)) by (vm_compute; reflexivity).
  split; [exact Hs|].
  destruct (flags_meaning false jpeg_3 _ _ _ Hs) as (He & _ & Hc & _).
  split; [exact He|]. apply Hc.
  vm_compute. do 4 apply list_elem_of_further. apply list_elem_of_here.
Defined.

(** ** The read stream exists only after INIT has succeeded *)

(** X9: [fs.createReadStream] is called in the callback of a successful
    INIT and nowhere else: in every state of a session the stream exists
    exactly when INIT has been answered without error, and no chunk is
    delivered and no 'end' signalled before that. *)
Theorem stream_opened_iff_init_ok (lax : bool) (f : file) (evs : list event)
    (w : world) (tr : list action) :
  session lax f evs = Some (w, tr) ->
  (is_Some (mediaFile w) <-> is_Some (init_id evs)) /\
  (init_id evs = None ->
   existsb is_end evs = false /\ count_ev is_append_response evs = 0 /\
   (commands tr = [] \/ commands tr = ["INIT"])).
Proof.
  intros Hs.
  destruct (session_proto_inv _ _ _ _ _ Hs) as (p & done & Hsh & Hf).
  destruct Hf as [Hcm _ _ Hid _ _ Hack Hend _ _ _ _ _ _ _].
  split.
  - rewrite Hid. inversion Hsh; subst; simpl;
      split; intros [x Hx]; try discriminate Hx; eauto.
  - intros Hn. rewrite Hn in Hid.
    inversion Hsh; subst; simpl in *; try discriminate Hid;
      (split; [exact Hend|]); (split; [lia|]); auto.
    destruct Hcm as [[Hcm _]|Hcm]; auto.
Qed.

Lemma stream_opened_iff_init_ok_witness :
  session false jpeg_3 [Response INIT (Fail (Error "401"))] =
    Some (FileUploader,
          [Post endpoint_upload (initParameters "image/jpeg" 3);
           Callback (Some (Error "401")) None None]) /\
  init_id [Response INIT (Fail (Error "401"))] = None /\
  count_ev is_append_response [Response INIT (Fail (Error "401"))] = 0.
Proof.
  assert (Hs : session false jpeg_3 [Response INIT (Fail (Error "401"))] =
    Some (FileUploader,
          [Post endpoint_upload (initParameters "image/jpeg" 3);
           Callback (Some (Error "401")) None None])) by (vm_compute; reflexivity).
  split; [exact Hs|]. split; [reflexivity|].
  destruct (stream_opened_iff_init_ok false jpeg_3 _ _ _ Hs) as (_ & H).
  destruct (H eq_refl) as (_ & Ha & _). exact Ha.
Defined.

(** ** An upload in which every request succeeds *)

Lemma chunk_rounds_cons b r c u :
  chunk_rounds b r (c :: u) = Data :: Response APPEND (Ok b r) :: chunk_rounds b r u.
Proof. reflexivity. Qed.

Lemma run_chunk_rounds lax f b r u :
  forall id n,
    run lax f (chunk_rounds b r u) (flowing_world id n u) =
    Some (flowing_world id (n + Z.of_nat (length u))%Z [], appends_from id n u).
Proof.
  induction u as [|c u IH]; intros id n.
  - simpl. rewrite Z.add_0_r. reflexivity.
  - rewrite chunk_rounds_cons.
    rewrite run_cons by reflexivity. rewrite run_cons by reflexivity.
    change (fst (handle f (Response APPEND (Ok b r))
                   (fst (handle f Data (flowing_world id n (c :: u))))))
      with (flowing_world id (n + 1)%Z u).
    rewrite IH.
    replace (n + 1 + Z.of_nat (length u))%Z
      with (n + Z.of_nat (length (c :: u)))%Z by (simpl length; lia).
    reflexivity.
Qed.

(** X11: every file that passes the size check can be uploaded.  When
    INIT succeeds, every chunk is delivered and its APPEND answered
    without error, the stream then ends and FINALIZE is answered without
    processing_info, both stream contracts allow the schedule, and the
    session is exactly: INIT, one APPEND per chunk of the file in order,
    numbered from 0 and holding the base64 text of the chunk, FINALIZE,
    the log line, and one invocation of the completion callback with the
    FINALIZE response.  Nothing can follow. *)
Theorem complete_upload_succeeds (lax : bool) (f : file) (size : Z)
    (b0 ba bf : body) (r : httpResponse) :
  statSync_size f = inr size ->
  (size < maxSizeBytes (mime_lookup f))%Z ->
  processing_info bf = None ->
  exists w,
    session lax f (complete_upload f b0 ba bf r) =
      Some (w,
            Post endpoint_upload (initParameters (mime_lookup f) size) ::
            appends_from (media_id_string b0) 0 (chunks f) ++
            [_finalizeMedia (media_id_string b0);
             ConsoleLog [VStr "checking async finish"; VBody bf];
             Callback None (Some bf) (Some r)]) /\
    quiescent lax w.
Proof.
  intros Hstat Hlt Hbf.
  assert (Hup : upload f =
    (set_outstanding [INIT] FileUploader,
     [Post endpoint_upload (initParameters (mime_lookup f) size)])).
  { unfold upload, _initMedia. rewrite Hstat.
    destruct (Z.ltb_spec size (maxSizeBytes (mime_lookup f))); [reflexivity|lia]. }
  unfold session, complete_upload. rewrite Hup.
  rewrite run_cons by reflexivity.
  change (fst (handle f (Response INIT (Ok b0 r)) (set_outstanding [INIT] FileUploader)))
    with (flowing_world (media_id_string b0) 0 (chunks f)).
  rewrite run_app, run_chunk_rounds.
  rewrite run_cons by (destruct lax; reflexivity).
  rewrite run_one.
  set (n := (0 + Z.of_nat (length (chunks f)))%Z).
  change (fst (handle f End (flowing_world (media_id_string b0) n [])))
    with (Build_world false true (media_id_string b0) n
            (Some (Build_ReadStream [] true true)) [FINALIZE] []).
  change (enabled lax _ (Response FINALIZE (Ok bf r))) with true.
  cbv iota.
  assert (Hw : shape f PSettled (chunks f)
                 (fst (handle f (Response FINALIZE (Ok bf r))
                    (Build_world false true (media_id_string b0) n
                       (Some (Build_ReadStream [] true true)) [FINALIZE] [])))).
  { simpl. rewrite Hbf. simpl. constructor. }
  eexists. split.
  - rewrite finalize_turn, Hbf. reflexivity.
  - exact (shape_quiescent _ _ _ _ _ Hw eq_refl).
Qed.

Lemma complete_upload_succeeds_witness :
  statSync_size jpeg_3 = inr 3%Z /\
  (3 < maxSizeBytes (mime_lookup jpeg_3))%Z /\
  exists w,
    session false jpeg_3 (complete_upload jpeg_3 ok_body ok_body ok_body http_ok) =
      Some (w,
            Post endpoint_upload (initParameters (mime_lookup jpeg_3) 3) ::
            appends_from (media_id_string ok_body) 0 (chunks jpeg_3) ++
            [_finalizeMedia (media_id_string ok_body);
             ConsoleLog [VStr "checking async finish"; VBody ok_body];
             Callback None (Some ok_body) (Some http_ok)]) /\
    quiescent false w.
Proof.
  assert (Hlt : (3 < maxSizeBytes (mime_lookup jpeg_3))%Z) by (vm_compute; reflexivity).
  split; [reflexivity|]. split; [exact Hlt|].
  exact (complete_upload_succeeds false jpeg_3 3 ok_body ok_body ok_body http_ok
           eq_refl Hlt eq_refl).
Defined.
(** ** Polling until the processing has succeeded *)

Lemma polls_run_last lax f answers :
  forall ms w,
    shape f (PWaiting ms) (chunks f) w ->
    Forall (fun a => in_progress (fst a)) answers ->
    exists w' tr',
      run lax f (polls ms answers) w = Some (w', tr') /\
      shape f (PWaiting (last_delay ms answers)) (chunks f) w' /\
      mediaTmpId w' = mediaTmpId w /\
      count (is_command "STATUS") tr' = length answers /\
      count is_timeout tr' = length answers /\
      count is_callback tr' = 0.
Proof.
  induction answers as [|[b r] rest IH]; intros ms w Hw Hall.
  - exists w, []. repeat split; auto.
  - inversion Hall as [|? ? Hb Hrest]; subst. simpl in Hb.
    destruct (shape_waiting_next _ lax _ _ _ Hw) as (_ & _ & _ & Hen & Hst & Hp).
    destruct (shape_polling_next _ lax _ _ b r Hp Hb) as (Hen2 & Hw2).
    destruct (IH _ _ Hw2 Hrest) as (w' & tr' & Hrun & Hw' & Hid & Hc1 & Hc2 & Hc3).
    cbn [polls]. rewrite (run_cons _ _ _ _ _ Hen), (run_cons _ _ _ _ _ Hen2), Hrun.
    eexists w', _. split; [reflexivity|]. rewrite Hst.
    rewrite (in_progress_turn _ _ _ _ Hb) in Hid |- *. cbn [snd].
    repeat split; auto; obs; rewrite ?Hc1, ?Hc2, ?Hc3; reflexivity.
Qed.

Lemma shape_polling_enabled f lax done w r :
  shape f PPolling done w -> enabled lax w (Response STATUS r) = true.
Proof. intros H. inversion H; subst. reflexivity. Qed.

(** X12: polling ends when the processing has succeeded.  From a pending
    poll timer, after any number of in_progress answers, a STATUS response
    whose state is succeeded is handed to the completion callback with a
    null error: one STATUS request has been sent per answer, all for the
    media id of the upload, the callback is invoked in the last turn only,
    and nothing can follow. *)
Theorem polling_until_succeeded (lax : bool) (f : file) (evs : list event)
    (w : world) (tr : list action) (ms : Z)
    (answers : list (body * httpResponse)) (b : body) (r : httpResponse)
    (info : processingInfo) :
  session lax f evs = Some (w, tr) ->
  timers w = [ms] ->
  Forall (fun a => in_progress (fst a)) answers ->
  processing_info b = Some info ->
  state info = "succeeded" ->
  exists w' tr',
    session lax f (evs ++ polls_until ms answers b r) =
      Some (w', tr ++ tr' ++
                [_statusMedia (mediaTmpId w); Callback None (Some b) (Some r)]) /\
    count (is_command "STATUS") tr' = length answers /\
    count is_callback tr' = 0 /\
    quiescent lax w'.
Proof.
  intros Hs Ht Hall Hb Hst.
  destruct (session_inv _ _ _ _ _ Hs) as (p & done & Hsh & _).
  destruct (shape_timer _ _ _ _ _ Hsh Ht) as [-> ->].
  destruct (polls_run_last lax f answers ms w Hsh Hall)
    as (w1 & tr1 & Hrun & Hw1 & Hid & Hc1 & _ & Hc3).
  destruct (shape_waiting_next _ lax _ _ _ Hw1) as (_ & _ & _ & Hen & Hreq & Hp).
  assert (Hen2 : enabled lax (fst (handle f (Timeout (last_delay ms answers)) w1))
                   (Response STATUS (Ok b r)) = true).
  { exact (shape_polling_enabled _ _ _ _ _ Hp). }
  assert (Hset : shape f PSettled (chunks f)
                   (fst (handle f (Response STATUS (Ok b r))
                      (fst (handle f (Timeout (last_delay ms answers)) w1))))).
  { destruct (poll_turn_shape f PPolling _ STATUS (Ok b r) Hp (or_intror (conj eq_refl eq_refl)))
      as [(_ & H)|(ms' & Hms & _)]; [exact H|].
    rewrite status_turn, Hb, Hst in Hms. discriminate Hms. }
  exists (fst (handle f (Response STATUS (Ok b r))
            (fst (handle f (Timeout (last_delay ms answers)) w1)))), tr1.
  split; [|split; [exact Hc1|split; [exact Hc3|]]].
  - unfold polls_until. rewrite session_app, Hs, run_app, Hrun.
    rewrite (run_cons _ _ _ _ _ Hen), run_one, Hen2.
    rewrite Hreq, Hid, status_turn, Hb, Hst. reflexivity.
  - exact (shape_quiescent _ _ _ _ _ Hset eq_refl).
Qed.

Lemma polling_until_succeeded_witness :
  session false video_0 (until_polling pending) =
    Some (waiting_world 5000, polling_trace pending 5000) /\
  exists w' tr',
    session false video_0
      (until_polling pending ++
       polls_until 5000 [(processing "in_progress" (Some 2%Z) (Some 40%Z) None, http_ok)]
         (processing "succeeded" None None None) http_ok) =
      Some (w', polling_trace pending 5000 ++ tr' ++
                [_statusMedia "77";
                 Callback None (Some (processing "succeeded" None None None)) (Some http_ok)]) /\
    count (is_command "STATUS") tr' = 1 /\
    count is_callback tr' = 0 /\
    quiescent false w'.
Proof.
  assert (Hs : session false video_0 (until_polling pending) =
               Some (waiting_world 5000, polling_trace pending 5000))
    by (vm_compute; reflexivity).
  split; [exact Hs|].
  refine (polling_until_succeeded false video_0 _ _ _ 5000%Z
            [(processing "in_progress" (Some 2%Z) (Some 40%Z) None, http_ok)]
            (processing "succeeded" None None None) http_ok _ Hs eq_refl _ eq_refl eq_refl).
  apply Forall_cons; split; [|apply Forall_nil_2].
  eexists. split; reflexivity.
Defined.

(** ** The completion callback, whenever the stream signals its end *)

(** Every schedule of a stream that signals its end only while it flows is
    a schedule of the wide contract, with the same outcome. *)
Lemma enabled_wide w e : enabled false w e = true -> enabled true w e = true.
Proof.
  destruct e as [k r| | |ms]; simpl; auto.
  destruct (mediaFile w) as [s|]; [|discriminate].
  destruct (endEmitted s), (unread s), (flowing s); simpl; auto.
Qed.

Lemma run_wide f evs :
  forall w r, run false f evs w = Some r -> run true f evs w = Some r.
Proof.
  induction evs as [|e evs IH]; intros w r Hr; simpl in *; [exact Hr|].
  destruct (enabled false w e) eqn:He; [|discriminate Hr].
  rewrite (enabled_wide _ _ He).
  destruct (handle f e w) as [w1 a].
  destruct (run false f evs w1) as [[w2 t]|] eqn:Hrun; [|discriminate Hr].
  rewrite (IH _ _ Hrun). exact Hr.
Qed.

Lemma session_wide f evs r :
  session false f evs = Some r -> session true f evs = Some r.
Proof.
  unfold session. destruct (upload f) as [w0 a0].
  destruct (run false f evs w0) as [[w t]|] eqn:Hrun; [|discriminate].
  rewrite (run_wide _ _ _ _ Hrun). auto.
Qed.

Lemma end_after_failure_prefix a b :
  end_after_failure (a ++ b) = false -> end_after_failure a = false.
Proof.
  induction a as [|x a IH]; simpl; [reflexivity|].
  intros H. apply orb_false_elim in H as [H1 H2].
  rewrite (IH H2), orb_false_r.
  rewrite existsb_app in H1.
  destruct (is_append_failure x); [|reflexivity].
  destruct (existsb is_end a); [discriminate H1|reflexivity].
Qed.

Lemma end_after_failure_end a b :
  existsb is_append_failure a = true -> end_after_failure (a ++ End :: b) = true.
Proof.
  induction a as [|x a IH]; simpl; [discriminate|].
  intros H. apply orb_true_iff in H as [H|H].
  - rewrite H, existsb_app. simpl. rewrite orb_true_r. reflexivity.
  - rewrite (IH H), orb_true_r. reflexivity.
Qed.

Lemma session_no_end_after_failure lax f evs w tr :
  session lax f evs = Some (w, tr) ->
  lax = false \/ end_after_failure evs = false ->
  end_after_failure evs = false.
Proof.
  intros Hs [Hl|H]; [|exact H].
  destruct (session_proto_inv _ _ _ _ _ Hs) as (p & done & _ & Hf).
  destruct Hf as [_ _ _ _ _ _ _ _ _ _ _ _ _ Heaf _]. exact (Heaf Hl).
Qed.

(** As long as some event is enabled and 'end' has not followed a failed
    APPEND, the completion callback has not been invoked. *)
Lemma proto_no_callback_while_live f lax evs tr w e :
  ProtoInv f lax evs tr w -> enabled lax w e = true ->
  end_after_failure (evs ++ [e]) = false ->
  count is_callback tr = 0.
Proof.
  intros (p & done & Hs & Hf) He Hn.
  pose proof (enabled_cases _ _ _ _ _ _ Hs He) as Hc.
  rewrite end_after_failure_snoc in Hn. apply orb_false_elim in Hn as [Hn1 Hn2].
  destruct Hf as [_ _ _ _ _ _ _ _ _ _ _ _ Hfailed _ Hcb].
  specialize (Hcb Hn1).
  destruct p; simpl in *; auto; try contradiction.
  destruct Hc as (-> & _). rewrite (Hfailed eq_refl) in Hn2. simpl in Hn2. discriminate Hn2.
Qed.

Lemma shape_idle f p done w :
  shape f p done w ->
  match p with
  | PDead | PSettled | PAppendFailed _ => outstanding w = [] /\ timers w = []
  | _ => True
  end.
Proof. intros H. destruct H; simpl; auto. Qed.

(** A turn that invokes the completion callback, when 'end' has not
    followed a failed APPEND: nothing was called back before, nothing is
    left outstanding or pending, and the only event the stream might still
    deliver is 'end' on the stream a failed APPEND has left paused. *)
Lemma proto_callback_turn f lax evs tr w e :
  ProtoInv f lax evs tr w -> enabled lax w e = true ->
  end_after_failure (evs ++ [e]) = false ->
  count is_callback (snd (handle f e w)) <> 0 ->
  count is_callback tr = 0 /\
  outstanding (fst (handle f e w)) = [] /\
  timers (fst (handle f e w)) = [] /\
  (forall e', enabled lax (fst (handle f e w)) e' = true ->
              lax = true /\ e' = End /\
              existsb is_append_failure (evs ++ [e]) = true).
Proof.
  intros Hinv He Hn Hturn.
  pose proof (proto_no_callback_while_live _ _ _ _ _ _ Hinv He Hn) as H0.
  destruct (proto_inv_step _ _ _ _ _ _ Hinv He) as (p & done & Hs & Hf).
  destruct Hf as [_ _ _ _ _ _ _ _ _ _ _ _ Hfailed _ Hcb].
  specialize (Hcb Hn).
  split; [exact H0|].
  pose proof (shape_idle _ _ _ _ Hs) as Hidle.
  destruct p; simpl in Hcb; try specialize (Hcb eq_refl);
    rewrite count_app, H0 in Hcb; simpl in Hcb;
    try (exfalso; lia); simpl in Hidle; destruct Hidle as [Ho Ht];
    (split; [exact Ho|]); (split; [exact Ht|]); intros e' He'.
  - rewrite (shape_quiescent _ lax _ _ _ Hs eq_refl) in He'. discriminate He'.
  - pose proof (enabled_cases _ _ _ _ _ _ Hs He') as Hc. simpl in Hc.
    destruct Hc as (He0 & _ & Hl & _). repeat split; auto.
  - rewrite (shape_quiescent _ lax _ _ _ Hs eq_refl) in He'. discriminate He'.
Qed.

(** A session cut at a turn that invokes the callback. *)
Lemma proto_callback_cut lax f pre e post w tr :
  session lax f (pre ++ e :: post) = Some (w, tr) ->
  end_after_failure (pre ++ e :: post) = false ->
  (forall w0, count is_callback (snd (handle f e w0)) <> 0) ->
  exists w1 tr1,
    session lax f pre = Some (w1, tr1) /\
    enabled lax w1 e = true /\
    count is_callback tr1 = 0 /\
    post = [] /\ w = fst (handle f e w1) /\ tr = tr1 ++ snd (handle f e w1) /\
    outstanding w = [] /\ timers w = [] /\
    (forall e', enabled lax w e' = true -> lax = true /\ e' = End).
Proof.
  intros Hs Hn Hturn.
  destruct (session_cut _ _ _ _ _ _ _ Hs) as (w1 & tr1 & tr2 & Hpre & He & Hrun & ->).
  pose proof (session_proto_inv _ _ _ _ _ Hpre) as Hinv.
  assert (Hn1 : end_after_failure (pre ++ [e]) = false).
  { apply (end_after_failure_prefix _ post). rewrite <- app_assoc. exact Hn. }
  destruct (proto_callback_turn _ _ _ _ _ _ Hinv He Hn1 (Hturn w1))
    as (H0 & Ho & Ht & Hnext).
  assert (Hpost : post = []).
  { destruct post as [|e' post']; [reflexivity|]. exfalso.
    simpl in Hrun. destruct (enabled lax _ e') eqn:He'; [|discriminate Hrun].
    destruct (Hnext e' He') as (_ & -> & Hfail).
    pose proof (end_after_failure_end _ post' Hfail) as Ht'.
    rewrite <- app_assoc in Ht'. simpl in Ht'. congruence. }
  subst post. simpl in Hrun. inversion Hrun; subst.
  exists w1, tr1. rewrite app_nil_r.
  repeat split; auto; apply (Hnext _ H).
Qed.

Lemma init_failure_resets f done w err :
  shape f PInit done w -> fst (handle f (Response INIT (Fail err)) w) = FileUploader.
Proof. intros H. inversion H; subst. reflexivity. Qed.

(** C4, amended: provided the stream does not signal its end after an
    APPEND has failed (a stream that signals its end only while it flows
    never does), the completion callback is invoked at most once in a
    session, also when 'end' arrives while the last APPEND is outstanding.
    A transport error answered to INIT, APPEND, FINALIZE or STATUS is
    handed to the callback with no body, it is the only invocation of the
    session, no event of the schedule follows, and nothing is left
    outstanding or pending.  A FINALIZE response without processing_info,
    and a STATUS response whose state is succeeded, are handed to the
    callback with a null error, as the only invocation of the session, and
    nothing can follow. *)
Theorem callback_at_most_once (lax : bool) (f : file) (evs : list event)
    (w : world) (tr : list action) :
  session lax f evs = Some (w, tr) ->
  lax = false \/ end_after_failure evs = false ->
  count is_callback tr <= 1 /\
  (forall pre k err post,
     evs = pre ++ Response k (Fail err) :: post ->
     post = [] /\ outstanding w = [] /\ timers w = [] /\
     (forall e, enabled lax w e = true -> lax = true /\ k = APPEND /\ e = End) /\
     List.filter is_callback tr = [Callback (Some err) None None] /\
     exists tr1, tr = tr1 ++ [Callback (Some err) None None]) /\
  (forall pre k b r post,
     evs = pre ++ Response k (Ok b r) :: post ->
     (k = FINALIZE /\ processing_info b = None) \/
     (k = STATUS /\ exists info, processing_info b = Some info /\
                                 state info = "succeeded") ->
     post = [] /\ quiescent lax w /\
     List.filter is_callback tr = [Callback None (Some b) (Some r)] /\
     exists tr1, tr = tr1 ++ [Callback None (Some b) (Some r)]).
Proof.
  intros Hs Hh.
  pose proof (session_no_end_after_failure _ _ _ _ _ Hs Hh) as Hn.
  split; [|split].
  - destruct (session_proto_inv _ _ _ _ _ Hs) as (p & done & _ & Hf).
    destruct Hf as [_ _ _ _ _ _ _ _ _ _ _ _ _ _ Hcb].
    specialize (Hcb Hn).
    destruct p; simpl in Hcb; try specialize (Hcb eq_refl); lia.
  - intros pre k err post ->.
    destruct (proto_callback_cut _ _ _ _ _ _ _ Hs Hn)
      as (w1 & tr1 & Hpre & He & H0 & -> & Hw & -> & Ho & Ht & Hnext).
    { intros w0. rewrite failure_turn. discriminate. }
    rewrite failure_turn. repeat split; auto.
    + apply (Hnext _ H).
    + destruct k; try reflexivity; exfalso.
      * destruct (session_inv _ _ _ _ _ Hpre) as (p & done & Hsh & _).
        pose proof (response_phase _ _ _ _ _ _ _ Hsh He) as Hp. simpl in Hp. subst p.
        rewrite (init_failure_resets _ _ _ err Hsh) in Hw. subst w.
        rewrite FileUploader_quiescent in H. discriminate H.
      * destruct (settled_cut _ _ _ _ _ _ _ _ Hs (or_introl eq_refl))
          as (_ & _ & _ & _ & Hq & _).
        { intros w0. rewrite failure_turn. reflexivity. }
        rewrite Hq in H. discriminate H.
      * destruct (settled_cut _ _ _ _ _ _ _ _ Hs (or_intror eq_refl))
          as (_ & _ & _ & _ & Hq & _).
        { intros w0. rewrite failure_turn. reflexivity. }
        rewrite Hq in H. discriminate H.
    + apply (Hnext _ H).
    + rewrite filter_callback_app by exact H0. reflexivity.
    + eauto.
  - intros pre k b r post -> Hk.
    assert (Hturn : exists l, (forall w0, snd (handle f (Response k (Ok b r)) w0) =
                                  l ++ [Callback None (Some b) (Some r)]) /\
                              count is_callback l = 0 /\ count is_timeout l = 0 /\
                              (k = FINALIZE \/ k = STATUS)).
    { destruct Hk as [(-> & Hb)|(-> & info & Hb & Hst)].
      - exists [ConsoleLog [VStr "checking async finish"; VBody b]].
        split; [|auto]. intros w0. rewrite finalize_turn, Hb. reflexivity.
      - exists []. split; [|auto]. intros w0.
        rewrite status_turn, Hb, Hst. reflexivity. }
    destruct Hturn as (l & Hl & Hl0 & Hlt & Hk').
    destruct (settled_cut _ _ _ _ _ _ _ _ Hs Hk') as (_ & _ & _ & _ & Hq & _).
    { intros w0. rewrite Hl, count_app, Hlt. reflexivity. }
    destruct (proto_callback_cut _ _ _ _ _ _ _ Hs Hn)
      as (w1 & tr1 & Hpre & He & H0 & -> & Hw & -> & _).
    { intros w0. rewrite Hl, count_app, count_cons. simpl. lia. }
    rewrite Hl. repeat split; auto.
    + rewrite filter_callback_app by exact H0.
      rewrite filter_callback_app by exact Hl0. reflexivity.
    + exists (tr1 ++ l). rewrite app_assoc. reflexivity.
Qed.

Lemma callback_at_most_once_witness :
  session true jpeg_3 end_before_last_append = Some (settled_world 2 false, jpeg_3_trace) /\
  end_after_failure end_before_last_append = false /\
  count is_callback jpeg_3_trace <= 1 /\
  List.filter is_callback jpeg_3_trace = [Callback None (Some ok_body) (Some http_ok)].
Proof.
  assert (Hs : session true jpeg_3
    ((Response INIT (Ok ok_body http_ok) ::
      [Data; Response APPEND (Ok ok_body http_ok);
       Data; Response APPEND (Ok ok_body http_ok);
       Data; End; Response APPEND (Ok ok_body http_ok)]) ++
     Response FINALIZE (Ok ok_body http_ok) :: []) =
    Some (settled_world 2 false, jpeg_3_trace)) by (vm_compute; reflexivity).
  assert (Hn : end_after_failure end_before_last_append = false) by reflexivity.
  split; [exact Hs|]. split; [exact Hn|].
  destruct (callback_at_most_once true jpeg_3 _ _ _ Hs (or_intror Hn))
    as (Hle & _ & Hok).
  split; [exact Hle|].
  destruct (Hok _ _ _ _ _ eq_refl (or_introl (conj eq_refl eq_refl))) as (_ & _ & H & _).
  exact H.
Defined.

(** C4 as stated fails, in two ways.  The stat of [unreadable_file] throws:
    the session consists of that exception, no event is enabled, and the
    completion callback has not been invoked.  And in a session of
    [video_0] where every request is answered without error and STATUS
    reports the state pending, no event is enabled any more and the
    completion callback has not been invoked either. *)
Lemma callback_never_invoked :
  (session true unreadable_file [] =
     Some (FileUploader,
           [Throws (Error "EACCES: permission denied, stat 'private.png'")]) /\
   count is_callback
     [Throws (Error "EACCES: permission denied, stat 'private.png'")] = 0 /\
   quiescent true FileUploader) /\
  (session true video_0
     (until_polling pending ++ [Timeout 5000; Response STATUS (Ok pending http_ok)]) =
   Some (settled_world 0 true, polling_trace pending 5000 ++ [_statusMedia "77"]) /\
   end_after_failure
     (until_polling pending ++ [Timeout 5000; Response STATUS (Ok pending http_ok)]) = false /\
   count is_callback (polling_trace pending 5000 ++ [_statusMedia "77"]) = 0 /\
   quiescent true (settled_world 0 true)).
Proof.
  split.
  - split; [reflexivity|]. split; [reflexivity|]. apply FileUploader_quiescent.
  - split; [vm_compute; reflexivity|]. split; [reflexivity|]. split; [reflexivity|].
    apply settled_world_quiescent.
Qed.

(** ** A STATUS response the code cannot read *)

Lemma unreadable_status_turn f b r :
  unreadable_status b ->
  exists e, forall w, snd (handle f (Response STATUS (Ok b r)) w) = [Throws e].
Proof.
  intros [Hb|(info & Hb & Hst & Her)].
  - exists (TypeError "state"). intros w. rewrite status_turn, Hb. reflexivity.
  - exists (TypeError "message"). intros w. rewrite status_turn, Hb, Hst, Her. reflexivity.
Qed.

(** X10: a STATUS response without processing_info, or whose state is
    failed but which carries no error, makes the callback of
    [_statusMedia] throw when it reads the missing object.  The turn
    consists of that exception and of nothing else: the trace of the
    session is the trace up to the response followed by the exception; no
    timer is set, no request sent, and no event can follow.  Provided the
    stream has not signalled its end after a failed APPEND, the completion
    callback is not invoked in the whole session. *)
Theorem unreadable_status_throws (lax : bool) (f : file) (pre post : list event)
    (b : body) (r : httpResponse) (w : world) (tr : list action) :
  session lax f (pre ++ Response STATUS (Ok b r) :: post) = Some (w, tr) ->
  unreadable_status b ->
  exists w1 tr1 e,
    session lax f pre = Some (w1, tr1) /\
    snd (handle f (Response STATUS (Ok b r)) w1) = [Throws e] /\
    w = set_outstanding [] w1 /\
    tr = tr1 ++ [Throws e] /\
    post = [] /\ quiescent lax w /\
    outstanding w = [] /\ timers w = [] /\
    (lax = false \/ end_after_failure pre = false -> count is_callback tr = 0).
Proof.
  intros Hs Hb.
  destruct (unreadable_status_turn f b r Hb) as (e & He).
  destruct (settled_cut _ _ _ _ _ _ _ _ Hs (or_intror eq_refl))
    as (w1 & tr1 & Hpre & -> & Hq & -> & Ho & Ht & _ & _).
  { intros w0. rewrite He. reflexivity. }
  destruct (session_cut _ _ _ _ _ _ _ Hs) as (w1' & tr1' & tr2 & Hpre' & Hen & Hrun & Htr).
  rewrite Hpre in Hpre'. inversion Hpre'; subst w1' tr1'. clear Hpre'.
  assert (Hw : w = fst (handle f (Response STATUS (Ok b r)) w1)).
  { simpl in Hrun. inversion Hrun. reflexivity. }
  destruct (session_inv _ _ _ _ _ Hpre) as (p & done & Hsh & _).
  pose proof (response_phase _ _ _ _ _ _ _ Hsh Hen) as Hp. simpl in Hp. subst p.
  exists w1, tr1, e. rewrite He.
  split; [exact Hpre|]. split; [reflexivity|]. split.
  { rewrite Hw. inversion Hsh; subst. simpl.
    destruct Hb as [Hb|(info & Hb & Hst & Her)].
    - rewrite Hb. reflexivity.
    - rewrite Hb, Hst, Her. reflexivity. }
  repeat split; auto.
  intros Hh. rewrite count_app. simpl.
  assert (Hn : end_after_failure pre = false).
  { exact (session_no_end_after_failure _ _ _ _ _ Hpre Hh). }
  rewrite (proto_no_callback_while_live _ _ _ _ _ _ (session_proto_inv _ _ _ _ _ Hpre) Hen).
  - reflexivity.
  - rewrite end_after_failure_snoc, Hn, andb_false_r. reflexivity.
Qed.

Lemma unreadable_status_throws_witness :
  session false video_0 no_info_after_finalize =
    Some (settled_world 0 true,
          polling_trace pending 5000 ++
          [_statusMedia "77"; Throws (TypeError "state")]) /\
  unreadable_status ok_body /\
  count is_callback
    (polling_trace pending 5000 ++
     [_statusMedia "77"; Throws (TypeError "state")]) = 0.
Proof.
  assert (Hs : session false video_0
    ((until_polling pending ++ [Timeout 5000%Z]) ++
     Response STATUS (Ok ok_body http_ok) :: []) =
    Some (settled_world 0 true,
          polling_trace pending 5000 ++
          [_statusMedia "77"; Throws (TypeError "state")]))
    by (vm_compute; reflexivity).
  assert (Hb : unreadable_status ok_body) by (left; reflexivity).
  split; [vm_compute; reflexivity|]. split; [exact Hb|].
  destruct (unreadable_status_throws false video_0 _ _ _ _ _ _ Hs Hb)
    as (w1 & tr1 & e & _ & _ & _ & _ & _ & _ & _ & _ & H).
  exact (H (or_introl eq_refl)).
Defined.
